(** * MuJoCo-GS-Web: keyboard control, robot loading and the render loop

    A shallow embedding of four source units of the viewer:
    - [src/utils/KeyboardControl.js]  (module [KeyboardControl]),
    - the [RobotLoader] class         (module [RobotLoader]),
    - [MuJoCoDemo.render]             (module [MuJoCoDemo]),
    - the [SceneConfigManager] class  (module [SceneConfigManager]).

    Conventions of the embedding.
    - A JavaScript number is a rational ([Q]); equations between computed
      numbers are stated with [==].  Rounding, infinities and NaN are not
      represented.  A read past the end of a typed array (which yields
      [undefined], hence NaN in arithmetic) is therefore represented by
      [f64_get] with a placeholder, and every statement that depends on such
      a read assumes the index in range.
    - A typed array is a [list]; a write past its end is dropped, exactly as
      for stdpp's list insert.
    - A plain object used as a dictionary is a [gmap] over its own
      properties; where the enumeration order of the keys is used by the
      source, an association list in insertion order is used instead.  Where
      the name of a property comes from outside the program (a scene name, a
      key code, an actuator name decoded from the model, a robot name), the
      members inherited from [Object.prototype] are represented: a read or an
      [in] test finds them ([inherited], [has_property]), and an assignment
      to ["__proto__"] creates no property ([assign]).  [Object.prototype]
      itself is the standard one.  The names the configuration table of
      [KeyboardControl.js] lists (key codes and actuator names) are read as
      own properties.
    - [null]/[undefined] are [None]; a thrown [Error] or [TypeError] is a
      constructor of the result type, or [None] where the function has no
      other result. *)

From Stdlib Require Import QArith Qminmax Qround Lqa Lia Ascii.
From stdpp Require Import base option list sorting gmap strings.

(** ** Numbers and typed arrays *)

Definition Qltb (a b : Q) : bool := negb (Qle_bool b a).

(** [a[i]] on a [Float64Array], for an index in range. *)
Definition f64_get (a : list Q) (i : nat) : Q := default 0%Q (a !! i).

(** Truthiness of a nullable string: [null] and the empty string are falsy. *)
Definition truthy_str (o : option string) : bool :=
  match o with
  | Some (String _ _) => true
  | _ => false
  end.

(** ** Plain objects *)

(** The names [Object.prototype] defines. *)
Definition Object_prototype : list string :=
  [ "constructor"; "__defineGetter__"; "__defineSetter__"; "hasOwnProperty";
    "__lookupGetter__"; "__lookupSetter__"; "isPrototypeOf";
    "propertyIsEnumerable"; "toString"; "valueOf"; "__proto__";
    "toLocaleString" ]%string.

(** A name a plain object answers to without having a property of its own. *)
Definition inherited (n : string) : bool :=
  existsb (String.eqb n) Object_prototype.

(** [n in o] *)
Definition has_property {A : Type} (o : gmap string A) (n : string) : bool :=
  match o !! n with
  | Some _ => true
  | None => inherited n
  end.

(** [o[n] = v] for a value [v] that is not an object: an own property is
    updated; without one the assignment creates it, except under the name
    ["__proto__"], whose inherited setter ignores such a value. *)
Definition assign {A : Type} (o : gmap string A) (n : string) (v : A)
  : gmap string A :=
  match o !! n with
  | Some _ => <[n := v]> o
  | None => if String.eqb n "__proto__" then o else <[n := v]> o
  end.

(** ** The engine's model and data, as far as the sources read them *)

Record MjModel := {
  nu : nat;
  names : string;                       (* packed, NUL-terminated names *)
  name_actuatoradr : list nat;
  actuator_ctrllimited : list bool;
  actuator_ctrlrange : list Q;
  opt_timestep : Q;
  nbody : nat;
  body_mass : list Q;
  body_mocapid : list Z;
  body_rootid : list Z;
  body_jntadr : list Z;
  jnt_qposadr : list Z
}.

Record MjData := {
  ctrl : list Q;
  qfrc_applied : list Q;
  mocap_pos : list Q;
  qpos : list Q;
  dyn : nat                             (* everything else the engine owns *)
}.

Definition set_ctrl (d : MjData) (c : list Q) : MjData :=
  {| ctrl := c; qfrc_applied := qfrc_applied d; mocap_pos := mocap_pos d;
     qpos := qpos d; dyn := dyn d |}.

Definition set_qfrc_applied (d : MjData) (f : list Q) : MjData :=
  {| ctrl := ctrl d; qfrc_applied := f; mocap_pos := mocap_pos d;
     qpos := qpos d; dyn := dyn d |}.

Definition set_mocap_pos (d : MjData) (p : list Q) : MjData :=
  {| ctrl := ctrl d; qfrc_applied := qfrc_applied d; mocap_pos := p;
     qpos := qpos d; dyn := dyn d |}.

Definition set_qpos (d : MjData) (p : list Q) : MjData :=
  {| ctrl := ctrl d; qfrc_applied := qfrc_applied d; mocap_pos := mocap_pos d;
     qpos := p; dyn := dyn d |}.

(** ** src/utils/KeyboardControl.js *)

Module KeyboardControl.

Record Control := { key : string; actuator : string; value : Q }.

Record SceneConfig := { controls : list Control; description : string }.

Definition xlerobot_config : SceneConfig :=
  {| controls :=
       [ {| key := "KeyW"; actuator := "forward"; value := 1 |};
         {| key := "KeyS"; actuator := "forward"; value := -1 |};
         {| key := "KeyA"; actuator := "turn"; value := -1 |};
         {| key := "KeyD"; actuator := "turn"; value := 1 |} ];
     description := "W/S: Forward/Back | A/D: Turn Left/Right" |}.

Definition SCENE_CONFIGS : gmap string SceneConfig :=
  {[ "xlerobot/scene.xml" := xlerobot_config ]}.

(** What [this.config] holds when it is not [null]: a configuration of the
    table, or what [Object.prototype] holds under an inherited name, which
    [getConfig] returns for that name. *)
Inductive ConfigValue :=
  | Scene (cfg : SceneConfig)
  | Member (name : string).

(** The fields of a [KeyboardController]. *)
Record Controller := {
  enabled : bool;
  config : option ConfigValue;
  model : option MjModel;
  data : option MjData;
  keyStates : gmap string bool;
  actuatorIndices : gmap string nat
}.

(** Whether the controller's two bound handlers are registered on
    [document]. [addEventListener] ignores a second registration of the same
    function, [removeEventListener] an unregistered one. *)
Record Listeners := { keydown : bool; keyup : bool }.

Record World := { ctl : Controller; doc : Listeners }.

(** [new KeyboardController()] *)
Definition constructor : Controller :=
  {| enabled := false; config := None; model := None; data := None;
     keyStates := ∅; actuatorIndices := ∅ |}.

(** [SCENE_CONFIGS[sceneName] || null]: every member of [Object.prototype]
    is truthy. *)
Definition getConfig (sceneName : string) : option ConfigValue :=
  match SCENE_CONFIGS !! sceneName with
  | Some cfg => Some (Scene cfg)
  | None => if inherited sceneName then Some (Member sceneName) else None
  end.

Definition hasConfig (sceneName : string) : bool :=
  has_property SCENE_CONFIGS sceneName.

(** [names.subarray(adr)] *)
Fixpoint subarray (adr : nat) (s : string) : string :=
  match adr, s with
  | O, _ => s
  | S n, String _ s' => subarray n s'
  | S _, EmptyString => EmptyString
  end.

(** [decode(...).split(nullChar)[0]] *)
Fixpoint until_nul (s : string) : string :=
  match s with
  | EmptyString => EmptyString
  | String c s' =>
      if Ascii.eqb c Ascii.zero then EmptyString else String c (until_nul s')
  end.

Definition actuator_name (m : MjModel) (i : nat) : string :=
  until_nul (subarray (default 0%nat (name_actuatoradr m !! i)) (names m)).

Definition build_indices (m : MjModel) : gmap string nat :=
  foldl (fun acc i => assign acc (actuator_name m i) i) ∅ (seq 0 (nu m)).

Definition init_keyStates (cfg : SceneConfig) : gmap string bool :=
  foldl (fun acc c => <[key c := false]> acc) ∅ (controls cfg).

Definition disable (w : World) : World :=
  if negb (enabled (ctl w)) then w
  else {| ctl := constructor; doc := {| keydown := false; keyup := false |} |}.

(** How a call of [enable] ends: it returns a boolean, or the loop over
    [config.controls] throws because the value [getConfig] returned has no
    [controls]. *)
Inductive Outcome :=
  | Returned (b : bool)
  | TypeError.

Definition enable (sceneName : string) (m : MjModel) (d : MjData) (w : World)
  : Outcome * World :=
  let w1 := disable w in
  match getConfig sceneName with
  | None => (Returned false, w1)
  | Some (Scene cfg) =>
      (Returned true,
       {| ctl := {| enabled := true; config := Some (Scene cfg);
                    model := Some m; data := Some d;
                    keyStates := init_keyStates cfg;
                    actuatorIndices := build_indices m |};
          doc := {| keydown := true; keyup := true |} |})
  | Some (Member n) =>
      (TypeError,
       {| ctl := {| enabled := enabled (ctl w1); config := Some (Member n);
                    model := Some m; data := Some d; keyStates := ∅;
                    actuatorIndices := build_indices m |};
          doc := doc w1 |})
  end.

(** *** update *)

(** [this.keyStates[ctrl.key]] as a condition. *)
Definition pressed (ks : gmap string bool) (k : string) : bool :=
  default false (ks !! k).

(** [actuatorValues], an object filled in insertion order. *)
Fixpoint av_has (av : list (string * Q)) (n : string) : bool :=
  match av with
  | [] => false
  | (n', _) :: r => if String.eqb n' n then true else av_has r n
  end.

Fixpoint av_add (av : list (string * Q)) (n : string) (v : Q)
  : list (string * Q) :=
  match av with
  | [] => []
  | (n', x) :: r =>
      if String.eqb n' n then (n', (x + v)%Q) :: r else (n', x) :: av_add r n v
  end.

Definition group_step (aI : gmap string nat) (ks : gmap string bool)
    (av : list (string * Q)) (c : Control) : list (string * Q) :=
  match aI !! actuator c with
  | None => av
  | Some _ =>
      let av1 := if av_has av (actuator c) then av
                 else av ++ [(actuator c, 0%Q)] in
      if pressed ks (key c) then av_add av1 (actuator c) (value c) else av1
  end.

Definition group_controls (aI : gmap string nat) (ks : gmap string bool)
    (cs : list Control) : list (string * Q) :=
  foldl (group_step aI ks) [] cs.

Definition clamp (m : MjModel) (idx : nat) (v : Q) : Q :=
  if default false (actuator_ctrllimited m !! idx) then
    let min := f64_get (actuator_ctrlrange m) (2 * idx) in
    let max := f64_get (actuator_ctrlrange m) (2 * idx + 1) in
    Qmax min (Qmin max v)
  else v.

(** One turn of the second loop; [None] is the [TypeError] of reading a
    property of a [null] model. *)
Definition apply_entry (aI : gmap string nat) (m : option MjModel)
    (c : option (list Q)) (e : string * Q) : option (list Q) :=
  match c with
  | None => None
  | Some c =>
      match aI !! e.1 with
      | None => Some c
      | Some idx =>
          match m with
          | None => None
          | Some m => Some (<[idx := clamp m idx e.2]> c)
          end
      end
  end.

Definition apply_entries (aI : gmap string nat) (m : option MjModel)
    (c : list Q) (es : list (string * Q)) : option (list Q) :=
  foldl (apply_entry aI m) (Some c) es.

(** [None] is a [TypeError]: the model is [null], or [this.config] is a
    value without [controls]. *)
Definition update (k : Controller) : option Controller :=
  match enabled k, config k, data k with
  | true, Some (Member _), Some _ => None
  | true, Some (Scene cfg), Some d =>
      let av := group_controls (actuatorIndices k) (keyStates k) (controls cfg) in
      match apply_entries (actuatorIndices k) (model k) (ctrl d) av with
      | None => None
      | Some c =>
          Some {| enabled := enabled k; config := config k; model := model k;
                  data := Some (set_ctrl d c); keyStates := keyStates k;
                  actuatorIndices := actuatorIndices k |}
      end
  | _, _, _ => Some k
  end.

(** [None] is [undefined], the [description] of a value that has none. *)
Definition getDescription (k : Controller) : option string :=
  match config k with
  | Some (Scene cfg) => Some (description cfg)
  | Some (Member _) => None
  | None => Some EmptyString
  end.

(** *** key events *)

Record KeyEvent := { code : string; target_tagName : string }.

Definition set_keyStates (k : Controller) (ks : gmap string bool) : Controller :=
  {| enabled := enabled k; config := config k; model := model k;
     data := data k; keyStates := ks; actuatorIndices := actuatorIndices k |}.

(** A handler returns the controller and whether [preventDefault] was
    called on the event. *)
Definition _onKeyDown (ev : KeyEvent) (k : Controller) : Controller * bool :=
  if negb (enabled k) then (k, false)
  else if String.eqb (target_tagName ev) "INPUT"
          || String.eqb (target_tagName ev) "TEXTAREA" then (k, false)
  else if has_property (keyStates k) (code ev) then
    (set_keyStates k (assign (keyStates k) (code ev) true), true)
  else (k, false).

Definition _onKeyUp (ev : KeyEvent) (k : Controller) : Controller * bool :=
  if negb (enabled k) then (k, false)
  else if has_property (keyStates k) (code ev) then
    (set_keyStates k (assign (keyStates k) (code ev) false), true)
  else (k, false).

(** The browser delivers an event only to registered listeners. *)
Inductive EventType := KeyDown | KeyUp.

Definition dispatch (t : EventType) (ev : KeyEvent) (w : World) : World * bool :=
  match t with
  | KeyDown =>
      if keydown (doc w) then
        let '(k, p) := _onKeyDown ev (ctl w) in ({| ctl := k; doc := doc w |}, p)
      else (w, false)
  | KeyUp =>
      if keyup (doc w) then
        let '(k, p) := _onKeyUp ev (ctl w) in ({| ctl := k; doc := doc w |}, p)
      else (w, false)
  end.

(** *** Notions used to state the behaviour of [update] *)

(** The controls bound to actuator [n] whose key is currently pressed, in
    configuration order. *)
Definition bound_pressed (ks : gmap string bool) (n : string)
    (cs : list Control) : list Control :=
  List.filter (fun c => String.eqb (actuator c) n && pressed ks (key c)) cs.

(** The sum of their signed step values. *)
Definition key_sum (ks : gmap string bool) (n : string) (cs : list Control) : Q :=
  foldr (fun c acc => (value c + acc)%Q) 0%Q (bound_pressed ks n cs).

(** [actuatorValues[n]] *)
Fixpoint av_get (av : list (string * Q)) (n : string) : option Q :=
  match av with
  | [] => None
  | (n', v) :: r => if String.eqb n' n then Some v else av_get r n
  end.

(** What one control does to the value grouped under name [n]. *)
Definition step_value (ks : gmap string bool) (n : string) (old : Q)
    (c : Control) : Q :=
  if String.eqb (actuator c) n && pressed ks (key c)
  then (old + value c)%Q else old.

(** Distinct names are bound to distinct actuator indices. *)
Definition indices_injective (aI : gmap string nat) : Prop :=
  forall n1 n2 i, aI !! n1 = Some i -> aI !! n2 = Some i -> n1 = n2.

(** The controller is enabled with configuration [cfg] on the model [m] and
    the data [d]: the state [enable] establishes, and which key events and
    [update] preserve up to the contents of [d]. *)
Definition enabled_on (k : Controller) (cfg : SceneConfig) (m : MjModel)
    (d : MjData) : Prop :=
  enabled k = true /\ config k = Some (Scene cfg) /\ model k = Some m /\
  data k = Some d /\ actuatorIndices k = build_indices m.

(** The engine sizes its per-actuator arrays by [nu]. *)
Definition actuator_arrays_sized (m : MjModel) (d : MjData) : Prop :=
  length (ctrl d) = nu m /\
  length (actuator_ctrllimited m) = nu m /\
  length (actuator_ctrlrange m) = (2 * nu m)%nat.

(** A model and a data record for examples: two actuators, "forward"
    (limited to [-1/2, 1/2]) and "turn" (unlimited). *)
Definition example_model : MjModel :=
  {| nu := 2;
     names := String "w" (String Ascii.zero
                ("forward" ++ String Ascii.zero ("turn" ++ String Ascii.zero EmptyString)));
     name_actuatoradr := [2%nat; 10%nat];
     actuator_ctrllimited := [true; false];
     actuator_ctrlrange := [-(1#2); 1#2; 0; 0]%Q;
     opt_timestep := 0.002%Q;
     nbody := 2;
     body_mass := [0; 2]%Q;
     body_mocapid := [-1; -1]%Z;
     body_rootid := [0; 1]%Z;
     body_jntadr := [-1; 0]%Z;
     jnt_qposadr := [0]%Z |}.

Definition example_data : MjData :=
  {| ctrl := [0; 0]%Q; qfrc_applied := [1; 2; 3; 4; 5; 6]%Q; mocap_pos := [];
     qpos := [0; 0; 0; 1; 0; 0; 0]%Q; dyn := 0 |}.

Definition fresh_world : World :=
  {| ctl := constructor; doc := {| keydown := false; keyup := false |} |}.

(** The world after [enable('xlerobot/scene.xml', example_model, example_data)]. *)
Definition xlerobot_world : World :=
  (enable "xlerobot/scene.xml" example_model example_data fresh_world).2.

(** The same world after a key-down of W outside any text field. *)
Definition forward_world : World :=
  (dispatch KeyDown {| code := "KeyW"; target_tagName := "BODY" |}
            xlerobot_world).1.

(** *** Notions used to state further properties of the controller *)

(** The events the browser delivers, oldest first. *)
Definition dispatch_all (evs : list (EventType * KeyEvent)) (w : World) : World :=
  foldl (fun w e => (dispatch e.1 e.2 w).1) w evs.

(** The test of [_onKeyDown] on the event target. *)
Definition is_text_input (ev : KeyEvent) : bool :=
  String.eqb (target_tagName ev) "INPUT"
  || String.eqb (target_tagName ev) "TEXTAREA".

(** What the writing pass leaves at index [j]: the value of the last entry
    bound to [j], if there is one. *)
Fixpoint last_write (aI : gmap string nat) (m : MjModel)
    (es : list (string * Q)) (j : nat) : option Q :=
  match es with
  | [] => None
  | e :: r =>
      match last_write aI m r j with
      | Some v => Some v
      | None => if decide (aI !! e.1 = Some j) then Some (clamp m j e.2) else None
      end
  end.

(** A string without NUL. *)
Fixpoint no_nul (s : string) : bool :=
  match s with
  | EmptyString => true
  | String c r => negb (Ascii.eqb c Ascii.zero) && no_nul r
  end.

End KeyboardControl.

(** ** The RobotLoader class *)

Module RobotLoader.

(** *** String operations of the host language, on byte strings *)

(** [s.split(sep)] for a one-character separator. *)
Fixpoint split (sep : ascii) (s : string) : list string :=
  match s with
  | EmptyString => [EmptyString]
  | String c r =>
      if Ascii.eqb c sep then EmptyString :: split sep r
      else match split sep r with
           | h :: t => String c h :: t
           | [] => [String c EmptyString]
           end
  end.

(** [a.pop()] of a freshly built array, as a string ([undefined] cannot
    occur: [split] never returns an empty array). *)
Definition pop (l : list string) : string := List.last l EmptyString.

Fixpoint endsWith (suffix s : string) : bool :=
  if String.eqb s suffix then true
  else match s with
       | EmptyString => false
       | String _ r => endsWith suffix r
       end.

Fixpoint includes (sub s : string) : bool :=
  if String.prefix sub s then true
  else match s with
       | EmptyString => false
       | String _ r => includes sub r
       end.

(** Lower-casing of one byte. Only A-Z change: no character outside ASCII
    lower-cases to a letter of "object". *)
Definition lower (c : ascii) : ascii :=
  let n := nat_of_ascii c in
  if (65 <=? n)%nat && (n <=? 90)%nat then ascii_of_nat (n + 32) else c.

Fixpoint toLowerCase (s : string) : string :=
  match s with
  | EmptyString => EmptyString
  | String c r => String (lower c) (toLowerCase r)
  end.

(** Length of the match of [/meshes?\//] that starts at the head of [s].
    The [?] makes the final [s] optional: the pattern matches "meshes/" and
    "meshe/", and does not match "mesh/". *)
Definition mesh_sep (s : string) : option nat :=
  if String.prefix "meshes/" s then Some 7%nat
  else if String.prefix "meshe/" s then Some 6%nat
  else None.

(** [s.split(/meshes?\//)]: [skip] counts the characters of the current
    separator still to be dropped, [cur] is the piece being read. *)
Fixpoint split_mesh (s : string) (skip : nat) (cur : string) : list string :=
  match s with
  | EmptyString => [cur]
  | String c r =>
      match skip with
      | S k => split_mesh r k cur
      | O =>
          match mesh_sep s with
          | Some n => cur :: split_mesh r (Nat.pred n) EmptyString
          | None => split_mesh r O (cur ++ String c EmptyString)
          end
      end
  end.

(** *** Uploaded files *)

Record File := {
  webkitRelativePath : string;
  name : string;
  content : string          (* what [text()] and [arrayBuffer()] resolve to *)
}.

Definition path_of (f : File) : string :=
  match webkitRelativePath f with
  | EmptyString => name f
  | p => p
  end.

Definition meshName (path : string) : string :=
  pop (split_mesh path O EmptyString).

(** The four locals of [loadUploadedRobot]. *)
Record Scan := {
  meshFiles : gmap string string;
  robotXml : option string;
  objectsXml : option string;
  robotName : option string
}.

Definition scan_init : Scan :=
  {| meshFiles := ∅; robotXml := None; objectsXml := None; robotName := None |}.

(** The body of the [for (const file of files)] loop. *)
Definition scan_file (st : Scan) (file : File) : Scan :=
  let path := path_of file in
  let pathParts := split "/" path in
  let robotName1 :=
    if (1 <? length pathParts)%nat && negb (truthy_str (robotName st))
    then head pathParts else robotName st in
  if endsWith ".xml" path then
    let fileName := toLowerCase (pop (split "/" path)) in
    if includes "object" fileName then
      {| meshFiles := meshFiles st; robotXml := robotXml st;
         objectsXml := Some (content file); robotName := robotName1 |}
    else if negb (truthy_str (robotXml st)) then
      {| meshFiles := meshFiles st; robotXml := Some (content file);
         objectsXml := objectsXml st; robotName := robotName1 |}
    else
      {| meshFiles := meshFiles st; robotXml := robotXml st;
         objectsXml := objectsXml st; robotName := robotName1 |}
  else if includes "meshes/" path || includes "mesh/" path then
    {| meshFiles := <[meshName path := content file]> (meshFiles st);
       robotXml := robotXml st; objectsXml := objectsXml st;
       robotName := robotName1 |}
  else
    {| meshFiles := meshFiles st; robotXml := robotXml st;
       objectsXml := objectsXml st; robotName := robotName1 |}.

Definition scan (files : list File) : Scan := foldl scan_file scan_init files.

Record Uploaded := {
  up_robotXml : string;
  up_objectsXml : option string;
  up_meshFiles : gmap string string;
  up_robotName : string
}.

Inductive Result (A : Type) :=
  | Ok (a : A)
  | Error (message : string).
Arguments Ok {A} a.
Arguments Error {A} message.

Definition loadUploadedRobot (files : list File) : Result Uploaded :=
  let st := scan files in
  match robotXml st with
  | Some (String c r) =>
      Ok {| up_robotXml := String c r;
            up_objectsXml := objectsXml st;
            up_meshFiles := meshFiles st;
            up_robotName := if truthy_str (robotName st)
                            then default EmptyString (robotName st)
                            else "user_robot" |}
  | _ => Error "No robot XML file found in uploaded folder"
  end.

(** *** Predefined robots: the network *)

(** What [await fetch(url)] followed by [response.text()] can do: the fetch
    rejects, or it resolves with a status flag and a body whose reading
    resolves ([Some]) or rejects ([None]). *)
Inductive FetchOutcome :=
  | Rejected
  | Response (ok : bool) (text : option string).

Class Network := {
  Net : Type;
  fetch : string -> Net -> FetchOutcome * Net
}.

Record Predefined := {
  pre_robotXml : string;
  pre_objectsXml : option string;
  pre_robotDir : string
}.

Definition xmlNames (robotName : string) : list string :=
  [(robotName ++ ".xml")%string; "robot.xml"; "main.xml"].

(** The [for (const name of xmlNames)] loop. The result carries the list of
    requested URLs, oldest first. *)
Fixpoint try_names `{Network} (robotDir : string) (names : list string)
    (net : Net) (log : list string) : option string * Net * list string :=
  match names with
  | [] => (None, net, log)
  | n :: rest =>
      let url := (robotDir ++ "/" ++ n)%string in
      let '(out, net1) := fetch url net in
      match out with
      | Response true (Some body) => (Some body, net1, log ++ [url])
      | _ => try_names robotDir rest net1 (log ++ [url])
      end
  end.

Definition loadPredefinedRobot `{Network} (robotName basePath : string)
    (net : Net) : Result Predefined * Net * list string :=
  let robotDir := (basePath ++ "/" ++ robotName)%string in
  let '(robotXml, net1, log1) := try_names robotDir (xmlNames robotName) net [] in
  match robotXml with
  | Some (String c r) =>
      let url := (robotDir ++ "/objects.xml")%string in
      let '(out, net2) := fetch url net1 in
      let objectsXml :=
        match out with
        | Response true (Some body) => Some body
        | _ => None
        end in
      (Ok {| pre_robotXml := String c r; pre_objectsXml := objectsXml;
             pre_robotDir := robotDir |}, net2, log1 ++ [url])
  | _ => (Error ("Could not find robot XML in " ++ robotDir)%string, net1, log1)
  end.

Definition default_basePath : string := "./assets/robots".

(** *** Notions used to state the behaviour of the loaders *)

Definition is_xml (f : File) : bool := endsWith ".xml" (path_of f).

(** An [.xml] file whose lower-cased file name contains "object". *)
Definition is_object_xml (f : File) : bool :=
  is_xml f && includes "object" (toLowerCase (pop (split "/" (path_of f)))).

Definition is_robot_xml (f : File) : bool :=
  is_xml f && negb (includes "object" (toLowerCase (pop (split "/" (path_of f))))).

Definition nonempty (s : string) : bool :=
  match s with
  | EmptyString => false
  | String _ _ => true
  end.

(** The test of the mesh branch. *)
Definition is_mesh_path (path : string) : bool :=
  includes "meshes/" path || includes "mesh/" path.

Definition is_mesh_file (f : File) : bool :=
  negb (is_xml f) && is_mesh_path (path_of f).

(** A path in which the pattern of the split, [/meshes?\//], has a match. *)
Definition has_separator (path : string) : bool :=
  includes "meshes/" path || includes "meshe/" path.


(** Uploads for examples. *)
Definition empty_then_arm : list File :=
  [ {| webkitRelativePath := "bot/base.xml"; name := "base.xml"; content := EmptyString |};
    {| webkitRelativePath := "bot/arm.xml"; name := "arm.xml";
       content := "<mujoco/>" |} ].

Definition only_empty : list File :=
  [ {| webkitRelativePath := "bot/base.xml"; name := "base.xml"; content := EmptyString |} ].


Definition robot_with_mesh : list File :=
  [ {| webkitRelativePath := "bot/bot.xml"; name := "bot.xml";
       content := "<mujoco/>" |};
    {| webkitRelativePath := "bot/meshes/arm/link.stl"; name := "link.stl";
       content := "solid" |} ].

(** A successful fetch: resolved, [ok], and the body read. *)
Definition fetched (o : FetchOutcome) : option string :=
  match o with
  | Response true (Some body) => Some body
  | _ => None
  end.

(** A network for examples: every URL in the table answers 200 with the
    given body, every other URL answers 404. *)
Definition table_network (t : list (string * string)) : Network :=
  {| Net := unit;
     fetch := fun url _ =>
       match List.find (fun e => String.eqb e.1 url) t with
       | Some e => (Response true (Some e.2), tt)
       | None => (Response false (Some "Not Found"), tt)
       end |}.

(** What the candidates answer when they are requested one after the other,
    with their URLs. *)
Fixpoint attempts `{Network} (robotDir : string) (names : list string)
    (net : Net) : list (string * FetchOutcome) :=
  match names with
  | [] => []
  | n :: rest =>
      let url := (robotDir ++ "/" ++ n)%string in
      (url, (fetch url net).1) :: attempts robotDir rest (fetch url net).2
  end.

(** The body of the first successful attempt. *)
Fixpoint first_fetched (l : list (string * FetchOutcome)) : option string :=
  match l with
  | [] => None
  | (_, o) :: r =>
      match fetched o with
      | Some body => Some body
      | None => first_fetched r
      end
  end.

(** The URLs up to and including the first successful attempt. *)
Fixpoint requested (l : list (string * FetchOutcome)) : list string :=
  match l with
  | [] => []
  | (u, o) :: r =>
      u :: match fetched o with
           | Some _ => []
           | None => requested r
           end
  end.

(** The robot "arm" on a server where [arm.xml] is an empty file and
    [robot.xml] holds a definition. *)
Definition empty_arm_server : Network :=
  table_network [ ("./assets/robots/arm/arm.xml", EmptyString);
                  ("./assets/robots/arm/robot.xml", "<mujoco/>") ]%string.

(** A server that holds only [main.xml] for the robot "arm". *)
Definition main_only_server : Network :=
  table_network [ ("./assets/robots/arm/main.xml", "<mujoco/>") ]%string.

(** *** Notions used to state further properties of the loaders *)

(** A file under a directory, and the first segment of its path. *)
Definition nested (f : File) : bool :=
  (1 <? length (split "/" (path_of f)))%nat.

Definition first_segment (f : File) : string :=
  default EmptyString (head (split "/" (path_of f))).

(** A file that can name the robot: nested, with a non-empty first segment. *)
Definition names_robot (f : File) : bool :=
  nested f && nonempty (first_segment f).

(** A file one of the two content branches of the scan looks at. *)
Definition contributes (f : File) : bool :=
  is_xml f || is_mesh_path (path_of f).

(** *** cleanupRobot and getLoadedRobots *)

Section Bookkeeping.
(** What [loadedRobots] maps a name to; nothing in the class stores an
    entry, so the values and their truthiness are left open. *)
Variable Info : Type.
Variable truthy_info : Info -> bool.

(** [this.loadedRobots], a [Map]: its entries in insertion order, the keys
    without repetition. *)
Fixpoint Map_get (loaded : list (string * Info)) (n : string) : option Info :=
  match loaded with
  | [] => None
  | (n', v) :: r => if String.eqb n' n then Some v else Map_get r n
  end.

Definition Map_delete (loaded : list (string * Info)) (n : string)
  : list (string * Info) :=
  List.filter (fun e => negb (String.eqb e.1 n)) loaded.

Definition cleanupRobot (robotName : string) (loaded : list (string * Info))
  : list (string * Info) :=
  match Map_get loaded robotName with
  | Some robotInfo =>
      if truthy_info robotInfo then Map_delete loaded robotName else loaded
  | None => loaded
  end.

Definition getLoadedRobots (loaded : list (string * Info)) : list string :=
  loaded.*1.

End Bookkeeping.

End RobotLoader.

(** ** MuJoCoDemo.render *)

Module MuJoCoDemo.

Local Open Scope Q_scope.

(** [THREE.Vector3] *)
Record Vector3 := { x : Q; y : Q; z : Q }.

Definition sub (a b : Vector3) : Vector3 :=
  {| x := x a - x b; y := y a - y b; z := z a - z b |}.

Definition multiplyScalar (a : Vector3) (s : Q) : Vector3 :=
  {| x := x a * s; y := y a * s; z := z a * s |}.

(** Componentwise equality of numbers. *)
Definition veq (a b : Vector3) : Prop :=
  x a == x b /\ y a == y b /\ z a == z b.

(** The object picked by the pointer; [bodyID] may be absent. *)
Record PhysicsObject := { bodyID : option nat }.

Record DragStateManager := {
  physicsObject : option PhysicsObject;
  currentWorld : Vector3;
  worldHit : Vector3
}.

(** [dragged && dragged.bodyID]: the body id when the condition is truthy. *)
Definition dragged_body (dm : DragStateManager) : option nat :=
  match physicsObject dm with
  | Some o =>
      match bodyID o with
      | Some (S n) => Some (S n)
      | _ => None
      end
  | None => None
  end.

(** What [render] calls and does not define: the engine's primitives, the
    helpers of [mujocoUtils.js] and [DragStateManager.js], the host's
    [Math], and the render graph. *)
Class Host := {
  Scene : Type;
  Rng : Type;
  standardNormal : Rng -> Q * Rng;
  Math_exp : Q -> Q;
  Math_sqrt : Q -> Q;
  toMujocoPos : Vector3 -> Vector3;
  mj_applyFT : MjModel -> MjData -> Vector3 -> Vector3 -> Vector3 -> nat ->
               list Q -> list Q;
  mj_step : MjModel -> MjData -> MjData;
  mj_forward : MjModel -> MjData -> MjData;
  controls_update : Scene -> Scene;
  update_bodies : MjModel -> MjData -> Scene -> Scene;
  update_lights_and_draw : MjModel -> MjData -> Scene -> Scene;
  dragStateManager_update : Scene -> DragStateManager -> DragStateManager
}.

Record Params := {
  paused : bool;
  ctrlnoiserate : Q;
  ctrlnoisestd : Q;
  actuator_entries : gmap nat Q        (* the entries ["Actuator " + i] *)
}.

Definition set_actuator_entries (p : Params) (a : gmap nat Q) : Params :=
  {| paused := paused p; ctrlnoiserate := ctrlnoiserate p;
     ctrlnoisestd := ctrlnoisestd p; actuator_entries := a |}.

Section Render.
Context `{Host}.

Record Demo := {
  model : MjModel;
  data : MjData;
  params : Params;
  mujoco_time : Q;
  dragStateManager : DragStateManager;
  scene : Scene;
  rng : Rng
}.

(** The [for] loop over [currentCtrl], from index [i] on. *)
Fixpoint jitter (rate scale : Q) (i : nat) (cs : list Q) (a : gmap nat Q)
    (g : Rng) : list Q * gmap nat Q * Rng :=
  match cs with
  | [] => ([], a, g)
  | c :: r =>
      let '(n, g1) := standardNormal g in
      let c' := rate * c + scale * n in
      let '(r', a', g') := jitter rate scale (S i) r (<[i := c']> a) g1 in
      (c' :: r', a', g')
  end.

Definition noise_rate (timestep : Q) (p : Params) : Q :=
  Math_exp (- timestep / Qmax 1e-10 (ctrlnoiserate p)).

Definition noise_scale (timestep : Q) (p : Params) : Q :=
  ctrlnoisestd p * Math_sqrt (1 - noise_rate timestep p * noise_rate timestep p).

(** "Jitter the control state with gaussian random noise" *)
Definition noise_step (timestep : Q) (st : Demo) : Demo :=
  if Qltb 0 (ctrlnoisestd (params st)) then
    let rate := noise_rate timestep (params st) in
    let scale := noise_scale timestep (params st) in
    let '(c, a, g) :=
      jitter rate scale 0 (ctrl (data st)) (actuator_entries (params st))
             (rng st) in
    {| model := model st; data := set_ctrl (data st) c;
       params := set_actuator_entries (params st) a;
       mujoco_time := mujoco_time st;
       dragStateManager := dragStateManager st; scene := scene st; rng := g |}
  else st.

(** [for (i...) qfrc_applied[i] = 0.0] *)
Definition clear_forces (d : MjData) : MjData :=
  set_qfrc_applied d (repeat 0 (length (qfrc_applied d))).

Definition drag_force (m : MjModel) (dm : DragStateManager) (bodyID : nat)
  : Vector3 :=
  multiplyScalar (sub (currentWorld dm) (worldHit dm))
                 (f64_get (body_mass m) bodyID * 250).

(** "Clear old perturbations, apply new ones." *)
Definition perturb_step (st : Demo) : Demo :=
  let d0 := clear_forces (data st) in
  match dragged_body (dragStateManager st) with
  | Some bodyID =>
      let sc := update_bodies (model st) d0 (scene st) in
      let dm := dragStateManager_update sc (dragStateManager st) in
      let force := toMujocoPos (drag_force (model st) dm bodyID) in
      let point := toMujocoPos (worldHit dm) in
      let q := mj_applyFT (model st) d0 force {| x := 0; y := 0; z := 0 |}
                          point bodyID (qfrc_applied d0) in
      {| model := model st; data := set_qfrc_applied d0 q;
         params := params st; mujoco_time := mujoco_time st;
         dragStateManager := dm; scene := sc; rng := rng st |}
  | None =>
      {| model := model st; data := d0; params := params st;
         mujoco_time := mujoco_time st;
         dragStateManager := dragStateManager st; scene := scene st;
         rng := rng st |}
  end.

(** The state in which [mj_step] is about to be called. *)
Definition before_step (timestep : Q) (st : Demo) : Demo :=
  perturb_step (noise_step timestep st).

(** One turn of the [while] loop. *)
Definition loop_body (timestep : Q) (st : Demo) : Demo :=
  let st1 := before_step timestep st in
  {| model := model st1; data := mj_step (model st1) (data st1);
     params := params st1;
     mujoco_time := mujoco_time st1 + timestep * 1000;
     dragStateManager := dragStateManager st1; scene := scene st1;
     rng := rng st1 |}.

(** [while (this.mujoco_time < timeMS) { ... }].  The second component lists
    the data handed to [mj_step], one entry per call, oldest first; [None]
    means the loop has not finished within [fuel] turns. *)
Fixpoint while_loop (fuel : nat) (timeMS timestep : Q) (st : Demo)
  : option (Demo * list MjData) :=
  if Qltb (mujoco_time st) timeMS then
    match fuel with
    | O => None
    | S f =>
        match while_loop f timeMS timestep (loop_body timestep st) with
        | Some (st', log) => Some (st', data (before_step timestep st) :: log)
        | None => None
        end
    end
  else Some (st, []).

Definition set_mujoco_time (st : Demo) (t : Q) : Demo :=
  {| model := model st; data := data st; params := params st;
     mujoco_time := t; dragStateManager := dragStateManager st;
     scene := scene st; rng := rng st |}.

Definition set_scene (st : Demo) (sc : Scene) : Demo :=
  {| model := model st; data := data st; params := params st;
     mujoco_time := mujoco_time st; dragStateManager := dragStateManager st;
     scene := sc; rng := rng st |}.

(** Entry [i] of an [Int32Array], for a possibly negative or absent index. *)
Definition i32_get (a : list Z) (i : option Z) : option Z :=
  match i with
  | Some i => if (i <? 0)%Z then None else a !! Z.to_nat i
  | None => None
  end.

(** [pos[addr+0] += o.x; pos[addr+1] += o.y; pos[addr+2] += o.z] *)
Definition add_at (pos : list Q) (addr : Z) (k : Z) (v : Q) : list Q :=
  if (addr + k <? 0)%Z then pos
  else alter (fun p => p + v) (Z.to_nat (addr + k)) pos.

Definition add_offset (pos : list Q) (addr : option Z) (o : Vector3) : list Q :=
  match addr with
  | Some addr => add_at (add_at (add_at pos addr 0 (x o)) addr 1 (y o)) addr 2 (z o)
  | None => pos
  end.

(** The branch taken while paused. An entry of [body_mocapid] that is absent
    fails the test [>= 0] like a negative one. *)
Definition paused_frame (st : Demo) : Demo :=
  let dm := dragStateManager_update (scene st) (dragStateManager st) in
  let d1 :=
    match dragged_body dm with
    | Some b =>
        let offset :=
          toMujocoPos (multiplyScalar (sub (currentWorld dm) (worldHit dm)) 0.3) in
        let id := default (-1)%Z (body_mocapid (model st) !! b) in
        if (0 <=? id)%Z then
          set_mocap_pos (data st)
            (add_offset (mocap_pos (data st)) (Some (id * 3)%Z) offset)
        else
          let root := i32_get (body_rootid (model st)) (Some (Z.of_nat b)) in
          let addr := i32_get (jnt_qposadr (model st))
                              (i32_get (body_jntadr (model st)) root) in
          set_qpos (data st) (add_offset (qpos (data st)) addr offset)
    | None => data st
    end in
  {| model := model st; data := mj_forward (model st) d1; params := params st;
     mujoco_time := mujoco_time st; dragStateManager := dm;
     scene := scene st; rng := rng st |}.

(** The bound on the backlog, in milliseconds. *)
Definition backlog_bound : Q := 35.

Definition catch_up (timeMS : Q) (st : Demo) : Demo :=
  if Qltb backlog_bound (timeMS - mujoco_time st)
  then set_mujoco_time st timeMS else st.

Definition finish_frame (st : Demo) : Demo :=
  set_scene st
    (update_lights_and_draw (model st) (data st)
       (update_bodies (model st) (data st) (scene st))).

(** [render(timeMS)] *)
Definition render (fuel : nat) (timeMS : Q) (st : Demo)
  : option (Demo * list MjData) :=
  let st0 := set_scene st (controls_update (scene st)) in
  if negb (paused (params st0)) then
    let timestep := opt_timestep (model st0) in
    match while_loop fuel timeMS timestep (catch_up timeMS st0) with
    | Some (st1, log) => Some (finish_frame st1, log)
    | None => None
    end
  else Some (finish_frame (paused_frame st0), []).

End Render.

(** *** Notions used to state the behaviour of render *)

Section RenderNotions.
Context `{Host}.

(** The generator after [i] draws, and the [i]-th draw (from 0). *)
Fixpoint rng_after (i : nat) (g : Rng) : Rng :=
  match i with
  | O => g
  | S k => rng_after k (standardNormal g).2
  end.

Definition nth_normal (i : nat) (g : Rng) : Q :=
  (standardNormal (rng_after i g)).1.

(** The state after [n] turns of the [while] loop. *)
Fixpoint turns (n : nat) (timestep : Q) (st : Demo) : Demo :=
  match n with
  | O => st
  | S k => loop_body timestep (turns k timestep st)
  end.

(** The data handed to [mj_step] in the first [n] turns, oldest first. *)
Definition step_inputs (n : nat) (timestep : Q) (st : Demo) : list MjData :=
  (fun i => data (before_step timestep (turns i timestep st))) <$> seq 0 n.

(** The applied-force buffer of a state with every entry set to 0. *)
Definition zeroed_forces (st : Demo) : list Q :=
  repeat 0 (length (qfrc_applied (data st))).

Definition all_zero (d : MjData) : Prop :=
  Forall (fun q => q = 0) (qfrc_applied d).

End RenderNotions.

(** A host for examples: [mj_applyFT] writes its force, torque and point
    arguments and the body id into the buffer, [toMujocoPos] is the change of
    handedness (x, -z, y), the engine steps do nothing, the "normal" draws
    are 1, 2, 3, ... *)
Definition recording_host : Host :=
  {| Scene := unit;
     Rng := nat;
     standardNormal := fun g => (inject_Z (Z.of_nat (S g)), S g);
     Math_exp := fun _ => 1 # 2;
     Math_sqrt := fun q => q;
     toMujocoPos := fun v => {| x := x v; y := - z v; z := y v |};
     mj_applyFT := fun _ _ force torque point bodyID _ =>
       [ x force; y force; z force; x torque; y torque; z torque;
         x point; y point; z point; inject_Z (Z.of_nat bodyID) ];
     mj_step := fun _ d => d;
     mj_forward := fun _ d => d;
     controls_update := fun s => s;
     update_bodies := fun _ _ s => s;
     update_lights_and_draw := fun _ _ s => s;
     dragStateManager_update := fun _ dm => dm |}.

(** Body 1 (mass 2) dragged from the origin to (0.1, 0, 0). *)
Definition example_drag : DragStateManager :=
  {| physicsObject := Some {| bodyID := Some 1%nat |};
     currentWorld := {| x := 0.1; y := 0; z := 0 |};
     worldHit := {| x := 0; y := 0; z := 0 |} |}.

Definition no_drag : DragStateManager :=
  {| physicsObject := None;
     currentWorld := {| x := 0; y := 0; z := 0 |};
     worldHit := {| x := 0; y := 0; z := 0 |} |}.

Definition example_params (std : Q) : Params :=
  {| paused := false; ctrlnoiserate := 0; ctrlnoisestd := std;
     actuator_entries := ∅ |}.

(** A running demo on the example model (timestep 2 ms), at simulation time
    [t], with noise deviation [std]. *)
Definition example_demo (dm : DragStateManager) (std t : Q)
  : @Demo recording_host :=
  @Build_Demo recording_host
    KeyboardControl.example_model
    (set_ctrl KeyboardControl.example_data [1; 2])
    (example_params std) t dm tt 0%nat.

(** *** Notions used to state further properties of render *)

Section FrameNotions.
Context `{Host}.

(** The drag state a paused frame works with, its offset, and the data it
    hands to [mj_forward]. *)
Definition paused_drag (st : Demo) : DragStateManager :=
  dragStateManager_update (scene st) (dragStateManager st).

Definition paused_offset (st : Demo) : Vector3 :=
  toMujocoPos
    (multiplyScalar
       (sub (currentWorld (paused_drag st)) (worldHit (paused_drag st))) 0.3).

Definition paused_pose_edit (st : Demo) : MjData :=
  match dragged_body (paused_drag st) with
  | Some b =>
      let id := default (-1)%Z (body_mocapid (model st) !! b) in
      if (0 <=? id)%Z then
        set_mocap_pos (data st)
          (add_offset (mocap_pos (data st)) (Some (id * 3)%Z) (paused_offset st))
      else
        let root := i32_get (body_rootid (model st)) (Some (Z.of_nat b)) in
        let addr := i32_get (jnt_qposadr (model st))
                            (i32_get (body_jntadr (model st)) root) in
        set_qpos (data st) (add_offset (qpos (data st)) addr (paused_offset st))
  | None => data st
  end.

(** The address of the first position coordinate of the root joint of the
    root body of [b], when there is one. *)
Definition root_qpos_address (m : MjModel) (b : nat) : option Z :=
  i32_get (jnt_qposadr m)
          (i32_get (body_jntadr m) (i32_get (body_rootid m) (Some (Z.of_nat b)))).

(** What [add_offset] does to the entry at index [j], for the address [a]. *)
Definition bump (a : nat) (o : Vector3) (j : nat) (p : Q) : Q :=
  if decide (j = a) then p + x o
  else if decide (j = S a) then p + y o
  else if decide (j = S (S a)) then p + z o
  else p.

(** The same demo with the applied-force buffer replaced. *)
Definition with_forces (st : Demo) (q : list Q) : Demo :=
  {| model := model st; data := set_qfrc_applied (data st) q;
     params := params st; mujoco_time := mujoco_time st;
     dragStateManager := dragStateManager st; scene := scene st;
     rng := rng st |}.

End FrameNotions.

(** The example model with body 1 driven by mocap slot 0. *)
Definition mocap_model : MjModel :=
  {| nu := 0; names := EmptyString; name_actuatoradr := [];
     actuator_ctrllimited := []; actuator_ctrlrange := [];
     opt_timestep := 0.002; nbody := 2; body_mass := [0; 2];
     body_mocapid := [-1; 0]%Z; body_rootid := [0; 1]%Z;
     body_jntadr := [-1; -1]%Z; jnt_qposadr := [] |}.

Definition paused_params : Params :=
  {| paused := true; ctrlnoiserate := 0; ctrlnoisestd := 0;
     actuator_entries := ∅ |}.

(** A paused demo on model [m] with body 1 dragged from the origin to
    (0.1, 0, 0). *)
Definition paused_demo (m : MjModel) : @Demo recording_host :=
  @Build_Demo recording_host m
    {| ctrl := []; qfrc_applied := [1; 2; 3]; mocap_pos := [1; 1; 1];
       qpos := [0; 0; 0; 1; 0; 0; 0]; dyn := 0 |}
    paused_params 0 example_drag tt 0%nat.

End MuJoCoDemo.

(** ** The SceneConfigManager class *)

Module SceneConfigManager.

(** *** Plain objects with string keys *)

Section PlainObject.
Context {A : Type}.

(** An object is given by its own properties, in the order they were
    created; its prototype is [Object.prototype]. [own_get] is the own
    property of that name. *)
Fixpoint own_get (o : list (string * A)) (n : string) : option A :=
  match o with
  | [] => None
  | (n', v) :: r => if String.eqb n' n then Some v else own_get r n
  end.

(** Storing an own property: an existing one keeps its place, a new one
    comes last. *)
Fixpoint own_set (o : list (string * A)) (n : string) (v : A)
  : list (string * A) :=
  match o with
  | [] => [(n, v)]
  | (n', x) :: r =>
      if String.eqb n' n then (n', v) :: r else (n', x) :: own_set r n v
  end.

(** What [o[n]] evaluates to. *)
Inductive Lookup :=
  | Own (a : A)          (* the own property *)
  | Inherited            (* found on the prototype chain, in [Object.prototype] *)
  | Undefined.

Definition obj_get (o : list (string * A)) (n : string) : Lookup :=
  match own_get o n with
  | Some a => Own a
  | None => if inherited n then Inherited else Undefined
  end.

(** What [o[n] = v] does for an object [v]: it stores an own property, or,
    under the name ["__proto__"] when [o] has no own property of that name,
    the inherited setter makes [v] the prototype of [o] and stores nothing.
    An object whose prototype was replaced is not represented. *)
Inductive Assigned :=
  | Stored (o : list (string * A))
  | PrototypeReplaced.

Definition obj_set (o : list (string * A)) (n : string) (v : A) : Assigned :=
  match own_get o n with
  | Some _ => Stored (own_set o n v)
  | None =>
      if String.eqb n "__proto__" then PrototypeReplaced
      else Stored (own_set o n v)
  end.

End PlainObject.

Arguments Lookup : clear implicits.
Arguments Assigned : clear implicits.

(** The value of a string of decimal digits. *)
Fixpoint digits_value (s : string) (acc : N) : option N :=
  match s with
  | EmptyString => Some acc
  | String c r =>
      let n := N_of_ascii c in
      if (48 <=? n)%N && (n <=? 57)%N
      then digits_value r (10 * acc + (n - 48))%N
      else None
  end.

(** An array index: the canonical decimal form of an integer below
    2^32 - 1. *)
Definition array_index (s : string) : option N :=
  match s with
  | EmptyString => None
  | String c r =>
      if Ascii.eqb c "0" then
        match r with
        | EmptyString => Some 0%N
        | _ => None
        end
      else
        match digits_value s 0 with
        | Some v => if (v <=? 4294967294)%N then Some v else None
        | None => None
        end
  end.

Definition index_le (a b : string) : Prop :=
  (default 0 (array_index a) <= default 0 (array_index b))%N.

#[local] Instance index_le_dec (a b : string) : Decision (index_le a b) :=
  decide (default 0 (array_index a) <= default 0 (array_index b))%N.

(** [Object.keys(o)]: the array indices in ascending order, then the other
    keys in creation order. *)
Definition Object_keys {A : Type} (o : list (string * A)) : list string :=
  merge_sort index_le (filter (fun k => is_Some (array_index k)) o.*1)
  ++ filter (fun k => ~ is_Some (array_index k)) o.*1.

(** *** The manager *)

Record Environment := {
  envPath : string;
  spzPath : string;
  env_description : string
}.

(** A robot entry; a field that is absent or null is [None]. *)
Record Robot := {
  robotPath : option string;
  objectsPath : option string;
  controllerType : option string;
  description : option string;
  isUserUploaded : option bool
}.

Record Manager := {
  environments : list (string * Environment);
  robots : list (string * Robot)
}.

Definition constructor : Manager :=
  {| environments :=
       [ ("tabletop"%string,
          {| envPath := "./assets/environments/tabletop/scene.xml";
             spzPath := "./assets/environments/tabletop/scene.spz";
             env_description := "Tabletop manipulation environment" |}) ];
     robots :=
       [ ("xlerobot"%string,
          {| robotPath := Some "./assets/robots/xlerobot/xlerobot.xml"%string;
             objectsPath := Some "./assets/robots/xlerobot/objects.xml"%string;
             controllerType := Some "XLeRobotController"%string;
             description := Some "XLeRobot Dual-Arm Mobile Robot"%string;
             isUserUploaded := None |});
         ("SO101"%string,
          {| robotPath := Some "./assets/robots/xlerobot/SO101.xml"%string;
             objectsPath := Some "./assets/robots/xlerobot/objects_SO101.xml"%string;
             controllerType := Some "SO101Controller"%string;
             description := Some "SO101 Single Arm"%string;
             isUserUploaded := None |});
         ("panda"%string,
          {| robotPath := Some "./assets/robots/panda/panda.xml"%string;
             objectsPath := Some "./assets/robots/panda/objects.xml"%string;
             controllerType := Some "PandaController"%string;
             description := Some "Franka Emika Panda"%string;
             isUserUploaded := None |});
         ("humanoid"%string,
          {| robotPath := Some "./assets/robots/humanoid/humanoid.xml"%string;
             objectsPath := None;
             controllerType := None;
             description := Some "DeepMind Humanoid"%string;
             isUserUploaded := None |}) ] |}.


Definition getRobot (robotName : string) (M : Manager) : Lookup Robot :=
  obj_get (robots M) robotName.


Definition listRobots (M : Manager) : list string :=
  Object_keys (robots M).

(** [{ ...config, isUserUploaded: true }] *)
Definition uploaded (config : Robot) : Robot :=
  {| robotPath := robotPath config; objectsPath := objectsPath config;
     controllerType := controllerType config;
     description := description config; isUserUploaded := Some true |}.

(** The manager after [registerUploadedRobot]; [None] when the call replaced
    the prototype of [this.robots]. *)
Definition registerUploadedRobot (robotName : string) (config : Robot)
    (M : Manager) : option Manager :=
  match obj_set (robots M) robotName (uploaded config) with
  | Stored o => Some {| environments := environments M; robots := o |}
  | PrototypeReplaced => None
  end.

(** A configuration for examples. *)
Definition my_robot : Robot :=
  {| robotPath := Some "/working/my_robot/robot.xml"%string;
     objectsPath := None; controllerType := None;
     description := Some "Uploaded"%string; isUserUploaded := None |}.

End SceneConfigManager.

(** * Properties *)

(** ** Comparison and clamping of numbers *)

Lemma Qltb_lt a b : Qltb a b = true <-> (a < b)%Q.
Proof.
  unfold Qltb. rewrite negb_true_iff.
  destruct (Qle_bool b a) eqn:E.
  - apply Qle_bool_iff in E. split; [discriminate | intros Hlt; exfalso; lra].
  - split; [intros _ | reflexivity].
    destruct (Qlt_le_dec a b) as [Hlt|Hle]; [exact Hlt|].
    apply Qle_bool_iff in Hle. congruence.
Qed.

Lemma Qltb_ge a b : Qltb a b = false <-> (b <= a)%Q.
Proof.
  unfold Qltb. rewrite negb_false_iff. apply Qle_bool_iff.
Qed.

Lemma Qclamp_cases (mn mx s : Q) :
  (s < mn /\ Qmax mn (Qmin mx s) == mn)%Q \/
  (mx < mn /\ Qmax mn (Qmin mx s) == mn)%Q \/
  (mn <= s <= mx /\ Qmax mn (Qmin mx s) == s)%Q \/
  (mn <= mx < s /\ Qmax mn (Qmin mx s) == mx)%Q.
Proof.
  destruct (Q.min_spec mx s) as [[H1 E1]|[H1 E1]];
  destruct (Q.max_spec mn (Qmin mx s)) as [[H2 E2]|[H2 E2]];
  rewrite E2; rewrite E1 in *;
  destruct (Qlt_le_dec s mn); destruct (Qlt_le_dec mx mn);
  first [ left; split; [assumption | lra]
        | right; left; split; [assumption | lra]
        | right; right; left; split; [split; assumption | lra]
        | right; right; right; split; [split; assumption | lra]
        | exfalso; lra ].
Qed.

Lemma Qclamp_proper (mn mx s s' : Q) :
  (s == s')%Q -> (Qmax mn (Qmin mx s) == Qmax mn (Qmin mx s'))%Q.
Proof.
  intros E.
  destruct (Qclamp_cases mn mx s) as [[? ->]|[[? ->]|[[? ->]|[? ->]]]];
  destruct (Qclamp_cases mn mx s') as [[? ->]|[[? ->]|[[? ->]|[? ->]]]];
  lra.
Qed.

(** ** Plain objects *)

Lemma inherited_proto : inherited "__proto__" = true.
Proof. reflexivity. Qed.

Lemma not_inherited_proto n : inherited n = false -> n <> "__proto__"%string.
Proof. intros Hn ->. discriminate. Qed.

Lemma has_property_own {A : Type} (o : gmap string A) n :
  is_Some (o !! n) -> has_property o n = true.
Proof. intros [v Hv]. unfold has_property. by rewrite Hv. Qed.

Lemma has_property_plain {A : Type} (o : gmap string A) n :
  inherited n = false -> has_property o n = bool_decide (is_Some (o !! n)).
Proof.
  intros Hn. unfold has_property. destruct (o !! n) as [v|] eqn:E.
  - symmetry. apply bool_decide_eq_true_2. eauto.
  - rewrite Hn. symmetry. apply bool_decide_eq_false_2. by intros [? ?].
Qed.

Lemma assign_own {A : Type} (o : gmap string A) n v :
  is_Some (o !! n) -> assign o n v = <[n := v]> o.
Proof. intros [x Hx]. unfold assign. by rewrite Hx. Qed.

Lemma assign_plain {A : Type} (o : gmap string A) n v :
  n <> "__proto__"%string -> assign o n v = <[n := v]> o.
Proof.
  intros Hn. unfold assign. destruct (o !! n); [reflexivity|].
  destruct (String.eqb_spec n "__proto__"); [contradiction | reflexivity].
Qed.

Lemma assign_proto {A : Type} (o : gmap string A) v :
  o !! "__proto__"%string = None -> assign o "__proto__" v = o.
Proof. intros Ho. unfold assign. by rewrite Ho. Qed.

(** An assignment changes at most the property it names. *)
Lemma lookup_assign_ne {A : Type} (o : gmap string A) n v n' :
  n <> n' -> assign o n v !! n' = o !! n'.
Proof.
  intros Hne. unfold assign. destruct (o !! n).
  - by apply lookup_insert_ne.
  - destruct (String.eqb n "__proto__"); [reflexivity|]. by apply lookup_insert_ne.
Qed.

Lemma lookup_assign_Some {A : Type} (o : gmap string A) n v n' x :
  assign o n v !! n' = Some x -> (n = n' /\ x = v) \/ o !! n' = Some x.
Proof.
  destruct (decide (n = n')) as [<-|Hne].
  - unfold assign. destruct (o !! n) eqn:E.
    + rewrite lookup_insert_eq. intros [= <-]. auto.
    + destruct (String.eqb n "__proto__").
      * rewrite E. discriminate.
      * rewrite lookup_insert_eq. intros [= <-]. auto.
  - rewrite lookup_assign_ne by exact Hne. auto.
Qed.

(** ** KeyboardControl *)

Module KeyboardControlFacts.
Import KeyboardControl.

(** *** enable and disable *)

Lemma disable_idempotent w : disable (disable w) = disable w.
Proof.
  unfold disable. destruct (enabled (ctl w)) eqn:E; simpl; [reflexivity|].
  rewrite E. reflexivity.
Qed.

Lemma disable_when_off w : enabled (ctl w) = false -> disable w = w.
Proof. intros E. unfold disable. rewrite E. reflexivity. Qed.

Lemma disable_when_on w :
  enabled (ctl w) = true ->
  disable w = {| ctl := constructor; doc := {| keydown := false; keyup := false |} |}.
Proof. intros E. unfold disable. rewrite E. reflexivity. Qed.

Lemma enable_configured sceneName cfg m d w :
  getConfig sceneName = Some (Scene cfg) ->
  (enable sceneName m d w).1 = Returned true /\
  enabled (ctl (enable sceneName m d w).2) = true /\
  doc (disable (enable sceneName m d w).2) = {| keydown := false; keyup := false |}.
Proof.
  intros E. unfold enable. rewrite E. simpl. auto.
Qed.

(** C3, as stated, fails: with the mapping of 'xlerobot/scene.xml' enabled,
    enabling the unconfigured scene 'humanoid.xml' returns false but does not
    leave the state unchanged. *)
Lemma enable_unconfigured_not_unchanged :
  getConfig "humanoid.xml" = None /\
  (enable "humanoid.xml" example_model example_data xlerobot_world).1
    = Returned false /\
  (enable "humanoid.xml" example_model example_data xlerobot_world).2
    <> xlerobot_world.
Proof.
  split; [reflexivity|]. split; [reflexivity|].
  intros E.
  apply (f_equal (fun w => enabled (ctl w))) in E.
  vm_compute in E. discriminate.
Qed.

(** The names for which [getConfig] returns [null]: those with no
    configuration in the table that [Object.prototype] does not define
    either. *)
Lemma getConfig_None sceneName :
  getConfig sceneName = None <->
  SCENE_CONFIGS !! sceneName = None /\ inherited sceneName = false.
Proof.
  unfold getConfig. destruct (SCENE_CONFIGS !! sceneName).
  - split; [discriminate | intros [? _]; discriminate].
  - destruct (inherited sceneName);
      (split; [try discriminate; auto | intros [_ ?]; try discriminate; auto]).
Qed.

(** For a name [Object.prototype] defines, [getConfig] returns the inherited
    member, and [enable] throws on its missing [controls]: after the previous
    mapping was disabled and the configuration, the model, the data and the
    index table were stored; no listener is added and the controller stays
    disabled. *)
Lemma enable_inherited_name sceneName m d w :
  SCENE_CONFIGS !! sceneName = None ->
  inherited sceneName = true ->
  enable sceneName m d w =
  (TypeError,
   {| ctl := {| enabled := false; config := Some (Member sceneName);
                model := Some m; data := Some d; keyStates := ∅;
                actuatorIndices := build_indices m |};
      doc := doc (disable w) |}).
Proof.
  intros E Hin. unfold enable, getConfig. rewrite E, Hin.
  do 3 f_equal. unfold disable. by destruct (enabled (ctl w)) eqn:Een.
Qed.

(** C3 (amended): for a scene name for which [getConfig] returns [null]
    (no registered configuration, and not a name [Object.prototype]
    defines), [enable] returns false and leaves the world as [disable]
    leaves it: unchanged when the controller was not enabled, and with the
    previous mapping disabled (listeners removed, all fields reset) when it
    was. *)
Theorem enable_unconfigured sceneName m d w :
  getConfig sceneName = None ->
  enable sceneName m d w = (Returned false, disable w) /\
  (enabled (ctl w) = false -> (enable sceneName m d w).2 = w) /\
  (enabled (ctl w) = true ->
   (enable sceneName m d w).2 =
   {| ctl := constructor; doc := {| keydown := false; keyup := false |} |}).
Proof.
  intros E. unfold enable. rewrite E. simpl.
  split; [reflexivity|]. split; intros Hen.
  - apply disable_when_off, Hen.
  - apply disable_when_on, Hen.
Qed.

Lemma enable_unconfigured_witness :
  enable "humanoid.xml" example_model example_data xlerobot_world
  = (Returned false, disable xlerobot_world).
Proof.
  apply (enable_unconfigured "humanoid.xml" example_model example_data
           xlerobot_world).
  reflexivity.
Defined.

(** *** The grouping pass of update *)

Lemma av_has_get av n : av_has av n = bool_decide (is_Some (av_get av n)).
Proof.
  induction av as [|[n' v] r IH]; simpl; [reflexivity|].
  destruct (String.eqb n' n); [reflexivity | exact IH].
Qed.

Lemma av_has_keys av n : av_has av n = true <-> n ∈ av.*1.
Proof.
  induction av as [|[n' v] r IH]; simpl.
  - split; [discriminate | intros Hin; inversion Hin].
  - destruct (String.eqb_spec n' n) as [->|Hne].
    + split; [intros _; left | reflexivity].
    + rewrite IH. split; [intros Hin; right; exact Hin|].
      intros Hin. inversion Hin; subst; [congruence | assumption].
Qed.

Lemma av_add_keys av n v : (av_add av n v).*1 = av.*1.
Proof.
  induction av as [|[n' w] r IH]; [reflexivity|].
  cbn [av_add]. destruct (String.eqb n' n); [reflexivity|].
  rewrite !fmap_cons, IH. reflexivity.
Qed.

Lemma av_get_add av n v n' :
  av_get (av_add av n v) n' =
  if String.eqb n n' then (fun w => (w + v)%Q) <$> av_get av n' else av_get av n'.
Proof.
  induction av as [|[m w] r IH]; simpl.
  - by destruct (String.eqb n n').
  - destruct (String.eqb_spec m n) as [->|Hne]; simpl.
    + destruct (String.eqb_spec n n') as [->|Hne']; [reflexivity|].
      reflexivity.
    + destruct (String.eqb_spec m n') as [->|Hne'].
      * destruct (String.eqb_spec n n'); [congruence | reflexivity].
      * exact IH.
Qed.

Lemma av_get_snoc av n v n' :
  av_get (av ++ [(n, v)]) n' =
  match av_get av n' with
  | Some w => Some w
  | None => if String.eqb n n' then Some v else None
  end.
Proof.
  induction av as [|[m w] r IH]; simpl; [reflexivity|].
  destruct (String.eqb m n'); [reflexivity | exact IH].
Qed.

Lemma av_get_group_step aI ks av c n :
  av_get (group_step aI ks av c) n =
  if String.eqb (actuator c) n && bool_decide (is_Some (aI !! n))
  then Some (step_value ks n (default 0%Q (av_get av n)) c)
  else av_get av n.
Proof.
  unfold group_step, step_value.
  assert (E1 : forall n', av_get (if av_has av n' then av
                                  else av ++ [(n', 0%Q)]) n
               = match av_get av n with
                 | Some w => Some w
                 | None => if String.eqb n' n then Some 0%Q else None
                 end).
  { intros n'. destruct (av_has av n') eqn:Eh.
    - destruct (av_get av n) as [w|] eqn:Eg; [reflexivity|].
      destruct (String.eqb_spec n' n) as [->|]; [|reflexivity].
      rewrite av_has_get, Eg in Eh. discriminate.
    - apply av_get_snoc. }
  destruct (String.eqb_spec (actuator c) n) as [->|Hne]; cbn [andb].
  - destruct (aI !! n) as [i|] eqn:Ei; [|reflexivity].
    cbn [bool_decide is_Some]. 
    destruct (pressed ks (key c)).
    + rewrite av_get_add, String.eqb_refl, E1, String.eqb_refl.
      destruct (av_get av n); reflexivity.
    + rewrite E1, String.eqb_refl. destruct (av_get av n); reflexivity.
  - destruct (aI !! actuator c); [|reflexivity].
    assert (E2 : av_get (if av_has av (actuator c) then av
                         else av ++ [(actuator c, 0%Q)]) n = av_get av n).
    { rewrite E1. destruct (av_get av n); [reflexivity|].
      destruct (String.eqb_spec (actuator c) n); [congruence | reflexivity]. }
    destruct (pressed ks (key c)); [|exact E2].
    rewrite av_get_add.
    destruct (String.eqb_spec (actuator c) n); [congruence | exact E2].
Qed.

Lemma group_step_NoDup aI ks av c :
  NoDup av.*1 -> NoDup (group_step aI ks av c).*1.
Proof.
  intros Hnd. unfold group_step.
  destruct (aI !! actuator c) as [i|]; [|exact Hnd].
  assert (Hnd1 : NoDup (if av_has av (actuator c) then av
                        else av ++ [(actuator c, 0%Q)]).*1).
  { destruct (av_has av (actuator c)) eqn:Eh; [exact Hnd|].
    rewrite fmap_app. simpl. apply NoDup_app. split; [exact Hnd|].
    split; [|apply NoDup_singleton].
    intros n Hin Hin'. apply list_elem_of_singleton in Hin'. subst n.
    apply av_has_keys in Hin. congruence. }
  destruct (pressed ks (key c)); [|exact Hnd1].
  rewrite av_add_keys. exact Hnd1.
Qed.

Lemma group_step_resolved (aI : gmap string nat) ks av c :
  (forall n, n ∈ av.*1 -> is_Some (aI !! n)) ->
  forall n, n ∈ (group_step aI ks av c).*1 -> is_Some (aI !! n).
Proof.
  intros Hres n. unfold group_step.
  destruct (aI !! actuator c) as [i|] eqn:Ei; [|apply Hres].
  assert (Hres1 : forall n, n ∈ (if av_has av (actuator c) then av
                        else av ++ [(actuator c, 0%Q)]).*1 -> is_Some (aI !! n)).
  { intros n'. destruct (av_has av (actuator c)); [apply Hres|].
    rewrite fmap_app. simpl. intros Hin. apply elem_of_app in Hin.
    destruct Hin as [Hin|Hin]; [by apply Hres|].
    apply list_elem_of_singleton in Hin. subst n'. eauto. }
  destruct (pressed ks (key c)); [|apply Hres1].
  rewrite av_add_keys. apply Hres1.
Qed.

Lemma group_fold_get (aI : gmap string nat) ks cs av n :
  is_Some (aI !! n) ->
  av_get (foldl (group_step aI ks) av cs) n =
  if av_has av n || existsb (fun c => String.eqb (actuator c) n) cs
  then Some (foldl (step_value ks n) (default 0%Q (av_get av n)) cs)
  else None.
Proof.
  intros Hres. revert av.
  induction cs as [|c r IH]; intros av; cbn [foldl existsb].
  - rewrite orb_false_r, av_has_get.
    destruct (av_get av n); reflexivity.
  - rewrite IH, av_has_get, av_get_group_step.
    rewrite (bool_decide_eq_true_2 _ Hres), andb_true_r.
    destruct (String.eqb_spec (actuator c) n) as [E|Hne]; cbn [orb].
    + rewrite orb_true_r. reflexivity.
    + rewrite <- av_has_get.
      unfold step_value at 3.
      destruct (String.eqb_spec (actuator c) n); [congruence|].
      reflexivity.
Qed.

Lemma fold_step_value_sum ks n cs start :
  (foldl (step_value ks n) start cs == start + key_sum ks n cs)%Q.
Proof.
  revert start. unfold key_sum, bound_pressed.
  induction cs as [|c r IH]; intros start; cbn [foldl List.filter foldr].
  - lra.
  - rewrite IH. unfold step_value.
    destruct (String.eqb (actuator c) n && pressed ks (key c));
      cbn [foldr]; lra.
Qed.

Lemma group_fold_NoDup aI ks cs av :
  NoDup av.*1 -> NoDup (foldl (group_step aI ks) av cs).*1.
Proof.
  revert av. induction cs as [|c r IH]; intros av Hnd; [exact Hnd|].
  apply IH, group_step_NoDup, Hnd.
Qed.

Lemma group_fold_resolved (aI : gmap string nat) ks cs av :
  (forall n, n ∈ av.*1 -> is_Some (aI !! n)) ->
  forall n, n ∈ (foldl (group_step aI ks) av cs).*1 -> is_Some (aI !! n).
Proof.
  revert av. induction cs as [|c r IH]; intros av Hres; [exact Hres|].
  apply IH, group_step_resolved, Hres.
Qed.

(** The grouped value of a configured, resolved actuator is the sum of the
    step values of its pressed keys. *)
Lemma group_controls_sum (aI : gmap string nat) ks cs n :
  is_Some (aI !! n) ->
  (exists c, c ∈ cs /\ actuator c = n) ->
  exists v, av_get (group_controls aI ks cs) n = Some v /\
            (v == key_sum ks n cs)%Q.
Proof.
  intros Hres (c & Hin & Hc). unfold group_controls.
  rewrite group_fold_get by exact Hres.
  assert (Hex : existsb (fun c => String.eqb (actuator c) n) cs = true).
  { apply existsb_exists. exists c. split; [by apply list_elem_of_In|].
    subst n. apply String.eqb_refl. }
  rewrite Hex, orb_true_r. eexists. split; [reflexivity|].
  rewrite fold_step_value_sum. cbn. lra.
Qed.

(** *** The writing pass of update *)

Lemma av_get_elem av n v : av_get av n = Some v -> (n, v) ∈ av.
Proof.
  induction av as [|[n' w] r IH]; simpl; [discriminate|].
  destruct (String.eqb_spec n' n) as [->|Hne].
  - intros [= ->]. left.
  - intros Hg. right. exact (IH Hg).
Qed.

Lemma apply_entries_frame aI m es c idx :
  (forall e, e ∈ es -> aI !! e.1 <> Some idx) ->
  exists c', apply_entries aI (Some m) c es = Some c' /\
             length c' = length c /\ c' !! idx = c !! idx.
Proof.
  unfold apply_entries. revert c.
  induction es as [|e r IH]; intros c Hno; cbn [foldl].
  - eauto.
  - unfold apply_entry at 2.
    assert (Hr : forall e', e' ∈ r -> aI !! e'.1 <> Some idx)
      by (intros e' Hin; apply Hno; by right).
    destruct (aI !! e.1) as [i|] eqn:Ei; [|apply IH, Hr].
    destruct (IH (<[i := clamp m i e.2]> c) Hr) as (c' & E & Hl & Hi).
    exists c'. split; [exact E|].
    rewrite Hl, Hi, length_insert. split; [reflexivity|].
    apply list_lookup_insert_ne. intros ->. apply (Hno e); [left | exact Ei].
Qed.

Lemma apply_entries_length aI m es c :
  exists c', apply_entries aI (Some m) c es = Some c' /\ length c' = length c.
Proof.
  unfold apply_entries. revert c.
  induction es as [|e r IH]; intros c; cbn [foldl]; [eauto|].
  unfold apply_entry at 2.
  destruct (aI !! e.1) as [i|]; [|apply IH].
  destruct (IH (<[i := clamp m i e.2]> c)) as (c' & E & Hl).
  exists c'. rewrite Hl, length_insert. auto.
Qed.

Lemma apply_entries_write aI m es c n idx v :
  indices_injective aI ->
  NoDup es.*1 ->
  av_get es n = Some v ->
  aI !! n = Some idx ->
  (idx < length c)%nat ->
  exists c', apply_entries aI (Some m) c es = Some c' /\
             length c' = length c /\ c' !! idx = Some (clamp m idx v).
Proof.
  intros Hinj. unfold apply_entries. revert c.
  induction es as [|[n' w] r IH]; intros c Hnd Hg Hi Hlt; [discriminate|].
  rewrite fmap_cons in Hnd. apply NoDup_cons in Hnd as [Hnotin Hnd].
  cbn [foldl]. unfold apply_entry at 2. cbn [fst snd].
  cbn [av_get] in Hg.
  destruct (String.eqb_spec n' n) as [->|Hne].
  - injection Hg as ->. rewrite Hi.
    destruct (apply_entries_frame aI m r (<[idx := clamp m idx v]> c) idx)
      as (c' & E & Hl & Hlk).
    { intros e Hin He. apply Hnotin.
      assert (e.1 = n) as <- by (eapply Hinj; eauto).
      apply list_elem_of_fmap. eauto. }
    exists c'. split; [exact E|].
    rewrite Hl, Hlk, length_insert. split; [reflexivity|].
    apply list_lookup_insert_eq, Hlt.
  - destruct (aI !! n') as [i|].
    + destruct (IH (<[i := clamp m i w]> c) Hnd Hg Hi) as (c' & E & Hl & Hlk).
      { rewrite length_insert. exact Hlt. }
      exists c'. rewrite Hl, length_insert. auto.
    + apply IH; assumption.
Qed.

(** *** The index table built by enable *)

Lemma build_indices_lookup m n i :
  build_indices m !! n = Some i -> (i < nu m)%nat /\ actuator_name m i = n.
Proof.
  unfold build_indices.
  assert (Hgen : forall l (acc : gmap string nat),
    (forall j, j ∈ l -> (j < nu m)%nat) ->
    (forall n i, acc !! n = Some i -> (i < nu m)%nat /\ actuator_name m i = n) ->
    forall n i,
      foldl (fun acc i => assign acc (actuator_name m i) i) acc l !! n = Some i ->
      (i < nu m)%nat /\ actuator_name m i = n).
  { induction l as [|j r IH]; intros acc Hl Hacc n' i'; cbn [foldl];
      [apply Hacc|].
    apply IH.
    - intros j' Hin. apply Hl. by right.
    - intros n2 i2 Hl2. apply lookup_assign_Some in Hl2 as [[Hn ->]|Hl2].
      + split; [apply Hl; left | exact Hn].
      + by apply Hacc. }
  apply Hgen.
  - intros j Hin. apply elem_of_seq in Hin. lia.
  - intros n' i'. rewrite lookup_empty. discriminate.
Qed.

Lemma build_indices_injective m : indices_injective (build_indices m).
Proof.
  intros n1 n2 i H1 H2.
  apply build_indices_lookup in H1 as [_ <-].
  apply build_indices_lookup in H2 as [_ <-]. reflexivity.
Qed.

Lemma enable_enabled_on sceneName cfg m d w :
  getConfig sceneName = Some (Scene cfg) ->
  enabled_on (ctl (enable sceneName m d w).2) cfg m d.
Proof.
  intros E. unfold enable. rewrite E. repeat split.
Qed.

Lemma onKeyDown_enabled_on ev k cfg m d :
  enabled_on k cfg m d -> enabled_on (_onKeyDown ev k).1 cfg m d.
Proof.
  intros Hk. unfold _onKeyDown.
  destruct (negb (enabled k)); [exact Hk|].
  destruct (_ || _); [exact Hk|].
  destruct (has_property (keyStates k) (code ev)); exact Hk.
Qed.

Lemma onKeyUp_enabled_on ev k cfg m d :
  enabled_on k cfg m d -> enabled_on (_onKeyUp ev k).1 cfg m d.
Proof.
  intros Hk. unfold _onKeyUp.
  destruct (negb (enabled k)); [exact Hk|].
  destruct (has_property (keyStates k) (code ev)); exact Hk.
Qed.

(** *** update *)

(** C4: on an enabled controller, [update] writes to the control entry of
    every configured actuator with a resolved binding the sum of the signed
    step values of the pressed keys bound to it, clamped to the declared
    range exactly when the actuator is limited: a limited actuator gets the
    sum itself when it lies in [min, max] and exactly min or exactly max
    otherwise, an unlimited one gets the sum unclamped; and two pressed
    opposing keys of equal magnitude give the sum 0. *)
Theorem update_writes_clamped_sum k cfg m d n idx :
  enabled_on k cfg m d ->
  actuator_arrays_sized m d ->
  (exists c, c ∈ controls cfg /\ actuator c = n) ->
  actuatorIndices k !! n = Some idx ->
  let s := key_sum (keyStates k) n (controls cfg) in
  let min := f64_get (actuator_ctrlrange m) (2 * idx) in
  let max := f64_get (actuator_ctrlrange m) (2 * idx + 1) in
  exists k' d' v,
    update k = Some k' /\ data k' = Some d' /\ ctrl d' !! idx = Some v /\
    (actuator_ctrllimited m !! idx = Some true ->
       (v == Qmax min (Qmin max s))%Q /\
       ((min <= s <= max)%Q -> (v == s)%Q) /\
       ((s < min \/ max < s)%Q -> (v == min \/ v == max)%Q)) /\
    (actuator_ctrllimited m !! idx = Some false -> (v == s)%Q) /\
    (forall c1 c2,
       bound_pressed (keyStates k) n (controls cfg) = [c1; c2] ->
       (value c2 == - value c1)%Q -> (s == 0)%Q).
Proof.
  intros (Hen & Hcfg & Hm & Hd & HaI) (Hlen & _ & _) Hc Hi s min max.
  assert (Hinj : indices_injective (actuatorIndices k))
    by (rewrite HaI; apply build_indices_injective).
  assert (Hlt : (idx < length (ctrl d))%nat).
  { rewrite Hlen. rewrite HaI in Hi. by apply build_indices_lookup in Hi as [? _]. }
  destruct (group_controls_sum (actuatorIndices k) (keyStates k) (controls cfg) n)
    as (v0 & Hg & Hv0); [eauto | exact Hc |].
  destruct (apply_entries_write (actuatorIndices k) m
              (group_controls (actuatorIndices k) (keyStates k) (controls cfg))
              (ctrl d) n idx v0) as (c' & Happ & _ & Hlk);
    [ exact Hinj | apply group_fold_NoDup; constructor
    | exact Hg | exact Hi | exact Hlt | ].
  unfold update. rewrite Hen, Hcfg, Hd, Hm, Happ.
  eexists _, _, _. split; [reflexivity|]. split; [reflexivity|].
  split; [exact Hlk|].
  fold s in Hv0. unfold clamp. fold min max.
  split; [|split].
  - intros ->. cbn [default from_option id].
    assert (E : (Qmax min (Qmin max v0) == Qmax min (Qmin max s))%Q)
      by (apply Qclamp_proper, Hv0).
    split; [exact E|].
    destruct (Qclamp_cases min max s) as [[? Ec]|[[? Ec]|[[? Ec]|[? Ec]]]];
      (split; [intros [? ?] | intros [?|?]]);
      first [lra | (left; lra) | (right; lra)].
  - intros ->. cbn [default from_option id]. exact Hv0.
  - intros c1 c2 Hbp Hopp. unfold s, key_sum. rewrite Hbp. cbn [foldr]. lra.
Qed.

Lemma update_writes_clamped_sum_witness :
  exists k' d' v,
    update (ctl forward_world) = Some k' /\ data k' = Some d' /\
    ctrl d' !! 0%nat = Some v /\ (v == 1 # 2)%Q.
Proof.
  destruct (update_writes_clamped_sum (ctl forward_world) xlerobot_config
              example_model example_data "forward" 0)
    as (k' & d' & v & Hu & Hd & Hv & Hlim & _ & _).
  - repeat split.
  - repeat split.
  - eexists. split; [left | reflexivity].
  - reflexivity.
  - exists k', d', v. repeat split; try assumption.
    destruct (Hlim eq_refl) as [E _]. rewrite E. reflexivity.
Defined.

(** The order in which the second loop visits the entries of
    [actuatorValues] does not matter. *)
Lemma av_get_iff av n v : NoDup av.*1 -> av_get av n = Some v <-> (n, v) ∈ av.
Proof.
  intros Hnd. split; [apply av_get_elem|].
  induction av as [|[n' w] r IH]; intros Hin; [inversion Hin|].
  rewrite fmap_cons in Hnd. apply NoDup_cons in Hnd as [Hnotin Hnd].
  cbn [av_get]. destruct (String.eqb_spec n' n) as [->|Hne].
  - apply elem_of_cons in Hin as [[= ->]|Hin]; [reflexivity|].
    exfalso. apply Hnotin. apply list_elem_of_fmap. exists (n, v). auto.
  - apply elem_of_cons in Hin as [[= -> ->]|Hin]; [congruence|].
    apply IH; assumption.
Qed.

Lemma apply_entries_any_order aI m es es' c n idx v :
  es ≡ₚ es' ->
  indices_injective aI ->
  NoDup es.*1 ->
  av_get es n = Some v ->
  aI !! n = Some idx ->
  (idx < length c)%nat ->
  exists c', apply_entries aI (Some m) c es' = Some c' /\
             c' !! idx = Some (clamp m idx v).
Proof.
  intros Hp Hinj Hnd Hg Hi Hlt.
  assert (Hnd' : NoDup es'.*1) by (by rewrite <- Hp).
  assert (Hg' : av_get es' n = Some v).
  { apply av_get_iff; [exact Hnd'|]. rewrite <- Hp. by apply av_get_iff. }
  destruct (apply_entries_write aI m es' c n idx v) as (c' & E & _ & Hlk);
    eauto.
Qed.

(** *** Key events *)

Lemma init_keyStates_lookup cfg k :
  init_keyStates cfg !! k =
  if bool_decide (k ∈ key <$> controls cfg) then Some false else None.
Proof.
  unfold init_keyStates.
  assert (Hgen : forall cs (acc : gmap string bool),
    foldl (fun acc c => <[key c := false]> acc) acc cs !! k =
    if bool_decide (k ∈ key <$> cs) then Some false else acc !! k).
  { induction cs as [|c r IH]; intros acc; cbn [foldl]; [reflexivity|].
    rewrite IH, fmap_cons. repeat case_bool_decide; try reflexivity.
    - exfalso. match goal with Hn : ¬ _ |- _ => apply Hn end. by right.
    - match goal with Hc : k ∈ _ :: _ |- _ =>
        apply elem_of_cons in Hc as [->|?]; [|contradiction] end.
      apply lookup_insert_eq.
    - apply lookup_insert_ne. intros <-.
      match goal with Hn : ¬ (_ ∈ _ :: _) |- _ => apply Hn end. left. }
  rewrite Hgen, lookup_empty. reflexivity.
Qed.

(** A key-down aimed at a text field is ignored. *)
Lemma onKeyDown_text_input ev k :
  target_tagName ev = "INPUT" \/ target_tagName ev = "TEXTAREA" ->
  _onKeyDown ev k = (k, false).
Proof.
  intros Ht. unfold _onKeyDown.
  destruct (negb (enabled k)); [reflexivity|].
  destruct Ht as [-> | ->]; reflexivity.
Qed.

(** An event for a key without a key state, whose code is not a name
    [Object.prototype] defines, is ignored by both handlers. *)
Lemma unconfigured_key_ignored ev k :
  keyStates k !! code ev = None ->
  inherited (code ev) = false ->
  _onKeyDown ev k = (k, false) /\ _onKeyUp ev k = (k, false).
Proof.
  intros Hk Hin. unfold _onKeyDown, _onKeyUp, has_property. rewrite Hk, Hin.
  destruct (negb (enabled k)); [auto|].
  destruct (_ || _); auto.
Qed.

(** An event whose code is a name [Object.prototype] defines passes the
    test [event.code in this.keyStates] without a key state: its default
    action is prevented, and (except for ["__proto__"]) it gains a key
    state. *)
Lemma inherited_code_intercepted ev k :
  enabled k = true ->
  keyStates k !! code ev = None ->
  inherited (code ev) = true ->
  (_onKeyUp ev k).2 = true /\
  keyStates (_onKeyUp ev k).1 !! code ev
  = if String.eqb (code ev) "__proto__" then None else Some false.
Proof.
  intros Hen Hk Hin. unfold _onKeyUp, has_property, assign.
  rewrite Hen, Hk, Hin. cbn [negb fst snd set_keyStates keyStates].
  split; [reflexivity|].
  destruct (String.eqb (code ev) "__proto__"); [exact Hk|].
  apply lookup_insert_eq.
Qed.

(** A key event whose code is not a name [Object.prototype] defines never
    adds or removes a key. *)
Lemma onKeyDown_keeps_keys ev k c :
  inherited (code ev) = false ->
  is_Some (keyStates (_onKeyDown ev k).1 !! c) <-> is_Some (keyStates k !! c).
Proof.
  intros Hin. unfold _onKeyDown.
  destruct (negb (enabled k)); [reflexivity|].
  destruct (_ || _); [reflexivity|].
  rewrite has_property_plain by exact Hin.
  case_bool_decide as Hk; [|reflexivity].
  cbn. rewrite assign_own by exact Hk.
  rewrite lookup_insert. case_decide; [subst c|reflexivity].
  split; eauto.
Qed.

Lemma onKeyUp_keeps_keys ev k c :
  inherited (code ev) = false ->
  is_Some (keyStates (_onKeyUp ev k).1 !! c) <-> is_Some (keyStates k !! c).
Proof.
  intros Hin. unfold _onKeyUp.
  destruct (negb (enabled k)); [reflexivity|].
  rewrite has_property_plain by exact Hin.
  case_bool_decide as Hk; [|reflexivity].
  cbn. rewrite assign_own by exact Hk.
  rewrite lookup_insert. case_decide; [subst c|reflexivity].
  split; eauto.
Qed.

(** A key-up for a configured key releases it, whatever the target. *)
Lemma onKeyUp_releases ev k :
  enabled k = true -> is_Some (keyStates k !! code ev) ->
  keyStates (_onKeyUp ev k).1 !! code ev = Some false /\
  (_onKeyUp ev k).2 = true.
Proof.
  intros Hen Hb. unfold _onKeyUp.
  rewrite Hen, (has_property_own _ _ Hb), (assign_own _ _ _ Hb). cbn.
  split; [apply lookup_insert_eq | reflexivity].
Qed.

(** C9 at a failing input: with W held down, a key-up of W aimed at an
    INPUT element is not ignored; it clears the key state and prevents the
    default action, where the same event as a key-down is ignored. *)
Theorem onKeyUp_text_input_not_ignored :
  let ev := {| code := "KeyW"; target_tagName := "INPUT" |} in
  let k := ctl forward_world in
  enabled k = true /\
  keyStates k !! "KeyW" = Some true /\
  _onKeyDown ev k = (k, false) /\
  (_onKeyUp ev k).2 = true /\
  keyStates (_onKeyUp ev k).1 !! "KeyW" = Some false /\
  _onKeyUp ev k <> (k, false).
Proof.
  cbv zeta. repeat split; try reflexivity.
  intros E. apply (f_equal snd) in E. vm_compute in E. discriminate.
Qed.

(** *** Further properties of the controller *)

(** X1: enabling a configured scene succeeds, installs both listeners and
    exposes the scene's description; disabling afterwards removes the
    listeners and restores the state of a new controller. *)
Theorem enable_disable_round_trip sceneName cfg m d w :
  getConfig sceneName = Some (Scene cfg) ->
  (enable sceneName m d w).1 = Returned true /\
  doc (enable sceneName m d w).2 = {| keydown := true; keyup := true |} /\
  getDescription (ctl (enable sceneName m d w).2) = Some (description cfg) /\
  disable (enable sceneName m d w).2 = fresh_world /\
  getDescription (ctl (disable (enable sceneName m d w).2)) = Some EmptyString.
Proof.
  intros E. unfold enable. rewrite E. cbn. repeat split.
Qed.

Lemma enable_disable_round_trip_witness :
  disable (enable "xlerobot/scene.xml" example_model example_data forward_world).2
  = fresh_world.
Proof.
  apply (enable_disable_round_trip "xlerobot/scene.xml" xlerobot_config
           example_model example_data forward_world).
  reflexivity.
Defined.

Lemma apply_entries_lookup aI m es c j :
  exists c',
    apply_entries aI (Some m) c es = Some c' /\
    length c' = length c /\
    c' !! j = match last_write aI m es j with
              | Some v => if decide (j < length c)%nat then Some v else None
              | None => c !! j
              end.
Proof.
  unfold apply_entries. revert c.
  induction es as [|e r IH]; intros c; cbn [foldl last_write]; [eauto|].
  unfold apply_entry at 2.
  destruct (aI !! e.1) as [i|] eqn:Ei.
  - destruct (IH (<[i := clamp m i e.2]> c)) as (c' & E & Hl & Hk).
    exists c'. rewrite length_insert in Hl, Hk.
    split; [exact E|]. split; [exact Hl|]. rewrite Hk.
    destruct (last_write aI m r j); [reflexivity|].
    case_decide as Hd.
    + injection Hd as ->. case_decide.
      * by apply list_lookup_insert_eq.
      * rewrite list_insert_ge by lia. apply lookup_ge_None. lia.
    + apply list_lookup_insert_ne. congruence.
  - destruct (IH c) as (c' & E & Hl & Hk). exists c'.
    split; [exact E|]. split; [exact Hl|]. rewrite Hk.
    destruct (last_write aI m r j); [reflexivity|].
    case_decide; [congruence | reflexivity].
Qed.

Lemma apply_entries_no_model aI c es c' :
  apply_entries aI None c es = Some c' ->
  c' = c /\ forall e, e ∈ es -> aI !! e.1 = None.
Proof.
  unfold apply_entries.
  assert (Hnone : forall l, foldl (apply_entry aI None) None l = None)
    by (induction l; [reflexivity | assumption]).
  induction es as [|e r IH]; cbn [foldl].
  - intros [= ->]. split; [reflexivity | intros e He; inversion He].
  - unfold apply_entry at 2. destruct (aI !! e.1) eqn:Ei.
    + rewrite Hnone. discriminate.
    + intros Hr. destruct (IH Hr) as [-> Hall]. split; [reflexivity|].
      intros e' He'. apply elem_of_cons in He' as [->|He']; auto.
Qed.

Lemma apply_entries_idem aI m c es c' :
  apply_entries aI m c es = Some c' -> apply_entries aI m c' es = Some c'.
Proof.
  destruct m as [m|].
  - intros E.
    assert (Hc : forall j,
      c' !! j = match last_write aI m es j with
                | Some v => if decide (j < length c)%nat then Some v else None
                | None => c !! j
                end /\ length c' = length c).
    { intros j. destruct (apply_entries_lookup aI m es c j) as (c1 & E1 & Hl & Hk).
      rewrite E in E1. injection E1 as <-. auto. }
    destruct (apply_entries_lookup aI m es c' 0) as (c2 & E2 & _).
    rewrite E2. f_equal. apply list_eq. intros j.
    destruct (apply_entries_lookup aI m es c' j) as (c3 & E3 & _ & Hk).
    rewrite E2 in E3. injection E3 as <-. rewrite Hk.
    destruct (Hc j) as [-> ->].
    destruct (last_write aI m es j); reflexivity.
  - intros E. by destruct (apply_entries_no_model _ _ _ _ E) as [-> _].
Qed.

(** X2: [update] is idempotent: with the key states unchanged, a second call
    returns the state the first one returned. *)
Theorem update_idempotent k k' : update k = Some k' -> update k' = Some k'.
Proof.
  unfold update.
  destruct (enabled k) eqn:Een; [|intros [= <-]; by rewrite Een].
  destruct (config k) as [[cfg|n]|] eqn:Ecfg;
    [| destruct (data k) eqn:Ed; [discriminate | intros [= <-]; by rewrite Een, Ecfg, Ed]
     | intros [= <-]; by rewrite Een, Ecfg].
  destruct (data k) as [d|] eqn:Ed; [|intros [= <-]; by rewrite Een, Ecfg, Ed].
  destruct (apply_entries _ _ _ _) as [c|] eqn:Ea; [|discriminate].
  intros [= <-]. cbn [enabled config data keyStates actuatorIndices model].
  cbn [set_ctrl ctrl].
  rewrite (apply_entries_idem _ _ _ _ _ Ea). reflexivity.
Qed.

Lemma update_idempotent_witness :
  exists k', update (ctl forward_world) = Some k' /\ update k' = Some k'.
Proof.
  destruct (update (ctl forward_world)) as [k'|] eqn:E; [|discriminate].
  exists k'. split; [reflexivity|].
  exact (update_idempotent (ctl forward_world) k' E).
Defined.

Lemma group_controls_keys (aI : gmap string nat) ks cs n :
  n ∈ (group_controls aI ks cs).*1 -> exists c, c ∈ cs /\ actuator c = n.
Proof.
  intros Hin. unfold group_controls in *.
  assert (Hres : is_Some (aI !! n)).
  { apply (group_fold_resolved aI ks cs []); [|exact Hin].
    intros n' Hn'. inversion Hn'. }
  apply av_has_keys in Hin. rewrite av_has_get in Hin.
  apply bool_decide_eq_true in Hin as [v Hv].
  rewrite (group_fold_get aI ks cs [] n Hres) in Hv. cbn [av_has orb] in Hv.
  destruct (existsb _ cs) eqn:Ex; [|discriminate].
  apply existsb_exists in Ex as (c & Hc & Hn).
  exists c. split; [by apply list_elem_of_In|]. by apply String.eqb_eq.
Qed.

Lemma last_write_None aI m es j :
  (forall e, e ∈ es -> aI !! e.1 <> Some j) -> last_write aI m es j = None.
Proof.
  induction es as [|e r IH]; intros Hno; [reflexivity|]. cbn [last_write].
  rewrite IH by (intros e' He'; apply Hno; by right).
  case_decide as Hd; [|reflexivity]. exfalso. apply (Hno e); [left | exact Hd].
Qed.

(** X3: [update] writes only the control entries of configured actuators:
    an entry whose index no configured actuator is bound to keeps its value,
    the control vector keeps its length, and nothing else of the data or of
    the key states changes. *)
Theorem update_leaves_other_entries k k' cfg d j :
  update k = Some k' ->
  config k = Some (Scene cfg) ->
  data k = Some d ->
  (forall c, c ∈ controls cfg -> actuatorIndices k !! actuator c <> Some j) ->
  exists d',
    data k' = Some d' /\
    length (ctrl d') = length (ctrl d) /\
    ctrl d' !! j = ctrl d !! j /\
    qfrc_applied d' = qfrc_applied d /\ qpos d' = qpos d /\
    mocap_pos d' = mocap_pos d /\
    keyStates k' = keyStates k.
Proof.
  intros Hu Hcfg Hd Hno. unfold update in Hu. rewrite Hcfg, Hd in Hu.
  destruct (enabled k); [|injection Hu as <-; exists d; repeat split; exact Hd].
  destruct (apply_entries _ _ _ _) as [c'|] eqn:Ea; [|discriminate].
  injection Hu as <-. exists (set_ctrl d c').
  cbn [data set_ctrl ctrl qfrc_applied qpos mocap_pos keyStates].
  split; [reflexivity|].
  assert (Hc : length c' = length (ctrl d) /\ c' !! j = ctrl d !! j);
    [|destruct Hc; repeat split; assumption].
  destruct (model k) as [m|].
  - destruct (apply_entries_lookup (actuatorIndices k) m
                (group_controls (actuatorIndices k) (keyStates k) (controls cfg))
                (ctrl d) j) as (c1 & E1 & Hl & Hk).
    rewrite Ea in E1. injection E1 as <-. split; [exact Hl|].
    rewrite Hk, last_write_None; [reflexivity|].
    intros e He. destruct (group_controls_keys (actuatorIndices k) (keyStates k)
                             (controls cfg) e.1) as (c & Hc & Hn).
    { apply list_elem_of_fmap. eauto. }
    rewrite <- Hn. by apply Hno.
  - by destruct (apply_entries_no_model _ _ _ _ Ea) as [-> _].
Qed.

Lemma update_leaves_other_entries_witness :
  exists k' d',
    update (ctl forward_world) = Some k' /\ data k' = Some d' /\
    ctrl d' !! 5%nat = ctrl example_data !! 5%nat.
Proof.
  destruct (update (ctl forward_world)) as [k'|] eqn:E; [|discriminate].
  destruct (update_leaves_other_entries (ctl forward_world) k' xlerobot_config
              example_data 5 E) as (d' & Hd & _ & Hj & _).
  - reflexivity.
  - reflexivity.
  - intros c Hc. unfold xlerobot_config in Hc. cbn [controls] in Hc.
    repeat (apply elem_of_cons in Hc as [->|Hc]; [vm_compute; discriminate|]).
    inversion Hc.
  - exists k', d'. auto.
Defined.

(** X4: from [enable] on, whatever key events arrive whose codes are not
    names [Object.prototype] defines, the controller stays enabled on the
    same configuration, model and data with both listeners installed, and
    the keys that have a state are exactly the keys of the scene's
    configuration, whatever was enabled before. *)
Theorem key_states_follow_config evs sceneName cfg m d w :
  getConfig sceneName = Some (Scene cfg) ->
  Forall (fun e : EventType * KeyEvent => inherited (code e.2) = false) evs ->
  let w1 := dispatch_all evs (enable sceneName m d w).2 in
  enabled_on (ctl w1) cfg m d /\
  doc w1 = {| keydown := true; keyup := true |} /\
  forall c, is_Some (keyStates (ctl w1) !! c) <-> c ∈ key <$> controls cfg.
Proof.
  intros E Hevs. cbv zeta.
  assert (Hinit : enabled_on (ctl (enable sceneName m d w).2) cfg m d /\
                  doc (enable sceneName m d w).2
                    = {| keydown := true; keyup := true |} /\
                  forall c, is_Some (keyStates (ctl (enable sceneName m d w).2) !! c)
                            <-> c ∈ key <$> controls cfg).
  { split; [by apply enable_enabled_on|]. unfold enable. rewrite E.
    cbn [snd doc ctl keyStates]. split; [reflexivity|]. intros c.
    rewrite init_keyStates_lookup. case_bool_decide as Hc.
    - split; [intros _; exact Hc | eauto].
    - split; [intros [? ?]; discriminate | contradiction]. }
  revert Hinit. generalize (enable sceneName m d w).2. unfold dispatch_all.
  induction Hevs as [|[t ev] r Hev Hr IH]; intros w0 Hw; cbn [foldl]; [exact Hw|].
  apply IH. destruct Hw as (Hon & Hdoc & Hkeys). cbn [snd] in Hev.
  unfold dispatch. cbn [fst snd]. rewrite Hdoc. cbn [keydown keyup].
  destruct t.
  - destruct (_onKeyDown ev (ctl w0)) as [k p] eqn:Ek. cbn [fst ctl doc].
    assert (k = (_onKeyDown ev (ctl w0)).1) as -> by (by rewrite Ek).
    split; [by apply onKeyDown_enabled_on|]. split; [reflexivity|].
    intros c. rewrite onKeyDown_keeps_keys by exact Hev. apply Hkeys.
  - destruct (_onKeyUp ev (ctl w0)) as [k p] eqn:Ek. cbn [fst ctl doc].
    assert (k = (_onKeyUp ev (ctl w0)).1) as -> by (by rewrite Ek).
    split; [by apply onKeyUp_enabled_on|]. split; [reflexivity|].
    intros c. rewrite onKeyUp_keeps_keys by exact Hev. apply Hkeys.
Qed.

Lemma key_states_follow_config_witness :
  is_Some (keyStates (ctl forward_world) !! "KeyS") /\
  keyStates (ctl forward_world) !! "Space" = None.
Proof.
  destruct (key_states_follow_config
              [(KeyDown, {| code := "KeyW"; target_tagName := "BODY" |})]
              "xlerobot/scene.xml" xlerobot_config example_model example_data
              fresh_world eq_refl) as (_ & _ & Hk).
  - repeat constructor.
  - split.
    + apply Hk. right. left.
    + reflexivity.
Defined.

(** X5: outside text fields, a key-down of a released configured key marks
    it pressed and a following key-up of the same key restores the
    controller exactly; both events have their default prevented. *)
Theorem keydown_keyup_round_trip ev k :
  enabled k = true ->
  is_text_input ev = false ->
  keyStates k !! code ev = Some false ->
  pressed (keyStates (_onKeyDown ev k).1) (code ev) = true /\
  (_onKeyDown ev k).2 = true /\
  _onKeyUp ev (_onKeyDown ev k).1 = (k, true).
Proof.
  intros Hen Ht Hk. unfold _onKeyDown, is_text_input in *.
  assert (Hs : is_Some (keyStates k !! code ev)) by eauto.
  assert (Hs' : is_Some (<[code ev := true]> (keyStates k) !! code ev))
    by (rewrite lookup_insert_eq; eauto).
  rewrite Hen, Ht, (has_property_own _ _ Hs), (assign_own _ _ _ Hs).
  cbn [negb fst snd].
  unfold pressed, _onKeyUp. cbn [set_keyStates keyStates enabled negb].
  rewrite Hen, (has_property_own _ _ Hs'), (assign_own _ _ _ Hs'),
    !lookup_insert_eq.
  cbn [negb default from_option id].
  split; [reflexivity|]. split; [reflexivity|].
  unfold set_keyStates. cbn [enabled config model data keyStates actuatorIndices].
  rewrite insert_insert_eq, (insert_id _ _ _ Hk).
  destruct k; reflexivity.
Qed.

Lemma keydown_keyup_round_trip_witness :
  _onKeyUp {| code := "KeyS"; target_tagName := "BODY" |}
    (_onKeyDown {| code := "KeyS"; target_tagName := "BODY" |}
                (ctl forward_world)).1
  = (ctl forward_world, true).
Proof.
  apply (keydown_keyup_round_trip
           {| code := "KeyS"; target_tagName := "BODY" |} (ctl forward_world));
    reflexivity.
Defined.

Lemma fold_step_value_released ks n cs start :
  (forall c, pressed ks c = false) ->
  foldl (step_value ks n) start cs = start.
Proof.
  intros Hrel. revert start. induction cs as [|c r IH]; intros start;
    cbn [foldl]; [reflexivity|].
  rewrite IH. unfold step_value. by rewrite Hrel, andb_false_r.
Qed.

(** X6: with no key pressed, [update] commands every configured actuator
    with a resolved binding with the clamp of 0, overwriting what the
    control entry held. *)
Theorem update_no_key_pressed k cfg m d c idx :
  enabled_on k cfg m d ->
  actuator_arrays_sized m d ->
  (forall key, pressed (keyStates k) key = false) ->
  c ∈ controls cfg ->
  actuatorIndices k !! actuator c = Some idx ->
  exists k' d',
    update k = Some k' /\ data k' = Some d' /\
    ctrl d' !! idx = Some (clamp m idx 0).
Proof.
  intros (Hen & Hcfg & Hm & Hd & HaI) (Hlen & _ & _) Hrel Hc Hi.
  assert (Hinj : indices_injective (actuatorIndices k))
    by (rewrite HaI; apply build_indices_injective).
  assert (Hlt : (idx < length (ctrl d))%nat).
  { rewrite Hlen. rewrite HaI in Hi. by apply build_indices_lookup in Hi as [? _]. }
  assert (Hg : av_get (group_controls (actuatorIndices k) (keyStates k)
                         (controls cfg)) (actuator c) = Some 0%Q).
  { unfold group_controls.
    rewrite (group_fold_get _ _ _ _ _ (ex_intro _ idx Hi)).
    assert (Hex : existsb (fun c' => String.eqb (actuator c') (actuator c))
                          (controls cfg) = true).
    { apply existsb_exists. exists c. split; [by apply list_elem_of_In|].
      apply String.eqb_refl. }
    rewrite Hex, orb_true_r, fold_step_value_released by exact Hrel.
    reflexivity. }
  destruct (apply_entries_write (actuatorIndices k) m
              (group_controls (actuatorIndices k) (keyStates k) (controls cfg))
              (ctrl d) (actuator c) idx 0%Q) as (c' & Happ & _ & Hlk);
    [ exact Hinj | apply group_fold_NoDup; constructor
    | exact Hg | exact Hi | exact Hlt | ].
  unfold update. rewrite Hen, Hcfg, Hd, Hm, Happ.
  eexists _, _. split; [reflexivity|]. split; [reflexivity | exact Hlk].
Qed.

Lemma update_no_key_pressed_witness :
  exists k' d',
    update (ctl xlerobot_world) = Some k' /\ data k' = Some d' /\
    ctrl d' !! 0%nat = Some (clamp example_model 0 0).
Proof.
  apply (update_no_key_pressed (ctl xlerobot_world) xlerobot_config
           example_model example_data
           {| key := "KeyW"; actuator := "forward"; value := 1 |} 0).
  - repeat split.
  - repeat split.
  - intros key. unfold pressed.
    destruct (keyStates (ctl xlerobot_world) !! key) as [b|] eqn:Eb; [|reflexivity].
    assert (Hb : xlerobot_world = (enable "xlerobot/scene.xml" example_model
                                     example_data fresh_world).2) by reflexivity.
    rewrite Hb in Eb. unfold enable in Eb. cbn [getConfig] in Eb.
    change (init_keyStates xlerobot_config !! key = Some b) in Eb.
    rewrite init_keyStates_lookup in Eb.
    destruct (bool_decide _); [by injection Eb as <- | discriminate].
  - left.
  - reflexivity.
Defined.

Lemma build_indices_upto m k n j :
  foldl (fun acc i => assign acc (actuator_name m i) i) (∅ : gmap string nat)
        (seq 0 k) !! n = Some j <->
  n <> "__proto__"%string /\
  (j < k)%nat /\ actuator_name m j = n /\
  forall j', (j' < k)%nat -> actuator_name m j' = n -> (j' <= j)%nat.
Proof.
  revert n j. induction k as [|k IH]; intros n j.
  - cbn. rewrite lookup_empty. split; [discriminate | intros (_ & ? & _); lia].
  - rewrite seq_S, foldl_app. cbn [foldl Nat.add].
    set (acc := foldl _ _ (seq 0 k)) in *.
    assert (Hproto : acc !! "__proto__"%string = None).
    { destruct (acc !! "__proto__"%string) as [j0|] eqn:E0; [|reflexivity].
      apply IH in E0 as [Hne _]. contradiction. }
    destruct (decide (actuator_name m k = "__proto__"%string)) as [Ek|Ek].
    + rewrite Ek, (assign_proto _ _ Hproto), IH. split.
      * intros (Hn & Hj & Hname & Hmax).
        split; [exact Hn|]. split; [lia|]. split; [exact Hname|].
        intros j' Hj' Hn'. destruct (decide (j' = k)) as [->|]; [congruence|].
        apply Hmax; [lia | exact Hn'].
      * intros (Hn & Hj & Hname & Hmax).
        assert (j <> k) by (intros ->; congruence).
        split; [exact Hn|]. split; [lia|]. split; [exact Hname|].
        intros j' Hj'. apply Hmax. lia.
    + rewrite (assign_plain _ _ _ Ek), lookup_insert. case_decide as Hn.
      * split.
        -- intros [= <-]. split; [congruence|]. split; [lia|].
           split; [exact Hn|]. intros; lia.
        -- intros (_ & Hj & _ & Hmax). f_equal.
           specialize (Hmax k ltac:(lia) Hn). lia.
      * rewrite IH. split.
        -- intros (Hp & Hj & Hname & Hmax).
           split; [exact Hp|]. split; [lia|]. split; [exact Hname|].
           intros j' Hj' Hn'. destruct (decide (j' = k)) as [->|]; [contradiction|].
           apply Hmax; [lia | exact Hn'].
        -- intros (Hp & Hj & Hname & Hmax).
           assert (j <> k) by (intros ->; contradiction).
           split; [exact Hp|]. split; [lia|]. split; [exact Hname|].
           intros j' Hj'. apply Hmax. lia.
Qed.

(** X7: the index table built by [enable] never has an entry under
    ["__proto__"], and it resolves the name of every actuator not so named;
    when several actuators share a name it resolves to the one with the
    highest index. *)
Theorem build_indices_resolves_last m i :
  (i < nu m)%nat ->
  build_indices m !! "__proto__"%string = None /\
  (actuator_name m i <> "__proto__"%string ->
   exists j,
     build_indices m !! actuator_name m i = Some j /\
     (i <= j < nu m)%nat /\
     actuator_name m j = actuator_name m i /\
     forall j', (j' < nu m)%nat -> actuator_name m j' = actuator_name m i ->
                (j' <= j)%nat).
Proof.
  intros Hi. unfold build_indices. split.
  { destruct (foldl _ _ _ !! "__proto__"%string) as [j0|] eqn:E0; [|reflexivity].
    apply build_indices_upto in E0 as [Hne _]. contradiction. }
  intros Hname.
  assert (Hex := fun j => proj2 (build_indices_upto m (nu m) (actuator_name m i) j)).
  assert (Hmax : exists j, (j < nu m)%nat /\ actuator_name m j = actuator_name m i /\
            forall j', (j' < nu m)%nat -> actuator_name m j' = actuator_name m i ->
                       (j' <= j)%nat).
  { clear Hex. generalize (nu m) Hi. intros k. induction k as [|k IH]; intros Hk; [lia|].
    destruct (decide (actuator_name m k = actuator_name m i)) as [Ek|Ek].
    - exists k. split; [lia|]. split; [exact Ek|]. intros; lia.
    - assert (Hik : (i < k)%nat)
        by (destruct (decide (i = k)) as [->|]; [contradiction | lia]).
      destruct (IH Hik) as (j & Hj & Hn & Hm). exists j.
      split; [lia|]. split; [exact Hn|]. intros j' Hj' Hn'.
      destruct (decide (j' = k)) as [->|]; [contradiction|]. apply Hm; [lia | exact Hn']. }
  destruct Hmax as (j & Hj & Hn & Hm). exists j.
  split; [apply Hex; auto|]. split; [|split; [exact Hn | exact Hm]].
  split; [apply Hm; [exact Hi | reflexivity] | exact Hj].
Qed.

Lemma build_indices_resolves_last_witness :
  exists j, build_indices example_model !! actuator_name example_model 1 = Some j
            /\ (1 <= j < 2)%nat.
Proof.
  destruct (build_indices_resolves_last example_model 1) as [_ Hres].
  - cbn. lia.
  - destruct Hres as (j & Hj & Hb & _); [vm_compute; discriminate|].
    exists j. split; [exact Hj | exact Hb].
Defined.

Lemma subarray_app (pre s : string) :
  subarray (String.length pre) (pre ++ s) = s.
Proof.
  induction pre as [|c pre IH]; [destruct s; reflexivity|]. exact IH.
Qed.

Lemma until_nul_app (name rest : string) :
  no_nul name = true ->
  until_nul (name ++ String Ascii.zero rest) = name.
Proof.
  induction name as [|c name IH]; [reflexivity|].
  cbn [no_nul]. intros Hn. apply andb_true_iff in Hn as [Hc Hn].
  change (String c name ++ String Ascii.zero rest)%string
    with (String c (name ++ String Ascii.zero rest)).
  cbn [until_nul]. apply negb_true_iff in Hc. rewrite Hc, IH by exact Hn.
  reflexivity.
Qed.

Lemma until_nul_no_nul s : no_nul (until_nul s) = true.
Proof.
  induction s as [|c s IH]; [reflexivity|]. cbn [until_nul].
  destruct (Ascii.eqb c Ascii.zero) eqn:Ec; [reflexivity|].
  cbn [no_nul]. rewrite Ec, IH. reflexivity.
Qed.

(** X8: decoding the packed name table gives back a name stored at the
    actuator's offset and terminated by NUL; a decoded name never contains
    NUL. *)
Theorem actuator_name_decodes m i pre name rest :
  names m = (pre ++ name ++ String Ascii.zero rest)%string ->
  name_actuatoradr m !! i = Some (String.length pre) ->
  no_nul name = true ->
  actuator_name m i = name /\
  forall i', no_nul (actuator_name m i') = true.
Proof.
  intros Hnames Hadr Hn. split; [|intros i'; apply until_nul_no_nul].
  unfold actuator_name. rewrite Hadr, Hnames. cbn [default from_option id].
  rewrite subarray_app. by apply until_nul_app.
Qed.

Lemma actuator_name_decodes_witness : actuator_name example_model 1 = "turn".
Proof.
  apply (actuator_name_decodes example_model 1
           (String "w" (String Ascii.zero ("forward" ++ String Ascii.zero EmptyString)))
           "turn" EmptyString); reflexivity.
Defined.

(** X9: a controller that is not enabled is inert: key events change
    nothing and never have their default prevented, and [update] writes
    nothing. *)
Theorem disabled_controller_inert evs w :
  enabled (ctl w) = false ->
  dispatch_all evs w = w /\
  (forall t ev, (dispatch t ev w).2 = false) /\
  update (ctl w) = Some (ctl w).
Proof.
  intros Hoff.
  assert (Hone : forall t ev, dispatch t ev w = (w, false)).
  { intros t ev. unfold dispatch, _onKeyDown, _onKeyUp. rewrite Hoff.
    cbn [negb]. destruct w as [k l]. cbn [ctl doc].
    destruct t; [destruct (keydown l) | destruct (keyup l)]; reflexivity. }
  split; [|split].
  - unfold dispatch_all. induction evs as [|[t ev] r IH]; cbn [foldl];
      [reflexivity|]. cbn [fst snd]. rewrite Hone. exact IH.
  - intros t ev. by rewrite Hone.
  - unfold update. by rewrite Hoff.
Qed.

Lemma disabled_controller_inert_witness :
  dispatch_all [(KeyDown, {| code := "KeyW"; target_tagName := "BODY" |})]
               (disable forward_world)
  = disable forward_world.
Proof.
  apply (disabled_controller_inert
           [(KeyDown, {| code := "KeyW"; target_tagName := "BODY" |})]
           (disable forward_world)).
  reflexivity.
Defined.

End KeyboardControlFacts.

(** ** RobotLoader *)

Module RobotLoaderFacts.
Import RobotLoader.

(** *** Strings *)

Lemma prefix_app p s : String.prefix p s = true -> exists r, s = (p ++ r)%string.
Proof.
  revert s. induction p as [|c p IH]; intros s.
  - intros _. exists s. reflexivity.
  - destruct s as [|c' s]; simpl; [discriminate|].
    destruct (Ascii.ascii_dec c c') as [->|?]; [|discriminate].
    intros Hp. destruct (IH s Hp) as [r ->]. exists r. reflexivity.
Qed.

Lemma includes_cons sub c s :
  includes sub (String c s) = String.prefix sub (String c s) || includes sub s.
Proof. cbn [includes]. destruct (String.prefix sub (String c s)); reflexivity. Qed.

Lemma mesh_sep_None s :
  mesh_sep s = None <->
  String.prefix "meshes/" s = false /\ String.prefix "meshe/" s = false.
Proof.
  unfold mesh_sep.
  destruct (String.prefix "meshes/" s); [split; [discriminate | intros [? _]; discriminate]|].
  destruct (String.prefix "meshe/" s); [split; [discriminate | intros [_ ?]; discriminate]|].
  split; auto.
Qed.

Lemma mesh_sep_Some s n :
  mesh_sep s = Some n ->
  exists sep r, s = (sep ++ r)%string /\ String.length sep = n /\
                (sep = "meshes/" \/ sep = "meshe/")%string.
Proof.
  unfold mesh_sep.
  destruct (String.prefix "meshes/" s) eqn:E1.
  - intros [= <-]. apply prefix_app in E1 as [r ->].
    exists "meshes/"%string, r. auto.
  - destruct (String.prefix "meshe/" s) eqn:E2; [|discriminate].
    intros [= <-]. apply prefix_app in E2 as [r ->].
    exists "meshe/"%string, r. auto.
Qed.

Lemma append_cons x (a b : string) :
  (String x a ++ b)%string = String x (a ++ b)%string.
Proof. reflexivity. Qed.

Lemma append_nil_l (b : string) : (EmptyString ++ b)%string = b.
Proof. reflexivity. Qed.

Lemma append_nil_r (a : string) : (a ++ EmptyString)%string = a.
Proof.
  induction a as [|x a IH]; [reflexivity|]. rewrite append_cons, IH. reflexivity.
Qed.

Lemma append_assoc (a b c : string) : ((a ++ b) ++ c = a ++ (b ++ c))%string.
Proof.
  induction a as [|x a IH]; [reflexivity|].
  rewrite !append_cons, IH. reflexivity.
Qed.

Lemma length_append (a b : string) :
  String.length (a ++ b) = (String.length a + String.length b)%nat.
Proof.
  induction a as [|x a IH]; [reflexivity|].
  rewrite append_cons. cbn [String.length]. rewrite IH. reflexivity.
Qed.

Lemma split_mesh_skip sep r cur :
  split_mesh (sep ++ r) (String.length sep) cur = split_mesh r O cur.
Proof.
  induction sep as [|c sep IH]; [destruct r; reflexivity|].
  rewrite append_cons. cbn [String.length split_mesh]. exact IH.
Qed.

Lemma split_mesh_nonempty s skip cur : split_mesh s skip cur <> [].
Proof.
  revert skip cur. induction s as [|c s IH]; intros skip cur; [discriminate|].
  cbn [split_mesh]. destruct skip; [|apply IH].
  destruct (mesh_sep (String c s)); [discriminate | apply IH].
Qed.

Lemma pop_cons x l : l <> [] -> pop (x :: l) = pop l.
Proof. intros Hl. unfold pop. destruct l; [congruence | reflexivity]. Qed.

Lemma has_separator_cons c s :
  has_separator (String c s) =
  bool_decide (is_Some (mesh_sep (String c s))) || has_separator s.
Proof.
  unfold has_separator. rewrite !includes_cons. unfold mesh_sep.
  destruct (String.prefix "meshes/" (String c s));
    destruct (String.prefix "meshe/" (String c s));
    destruct (includes "meshes/" s); destruct (includes "meshe/" s); reflexivity.
Qed.

(** The last piece of the split: the whole string when it contains no
    separator, and otherwise what follows a separator and contains none. *)
Lemma split_mesh_pop n s cur :
  (String.length s <= n)%nat ->
  if has_separator s then
    exists a sep,
      (s = a ++ sep ++ pop (split_mesh s O cur))%string /\
      (sep = "meshes/" \/ sep = "meshe/")%string /\
      has_separator (pop (split_mesh s O cur)) = false
  else pop (split_mesh s O cur) = (cur ++ s)%string.
Proof.
  revert s cur. induction n as [|n IH]; intros s cur Hlen.
  - destruct s; [|cbn in Hlen; lia]. cbn. by rewrite append_nil_r.
  - destruct s as [|c s]; [cbn; by rewrite append_nil_r|].
    rewrite has_separator_cons. cbn [split_mesh].
    destruct (mesh_sep (String c s)) as [k|] eqn:Em.
    + rewrite bool_decide_eq_true_2 by eauto. cbn [orb].
      destruct (mesh_sep_Some _ _ Em) as (sep & r & Es & Hk & Hsep).
      assert (exists sep', sep = String c sep' /\ s = (sep' ++ r)%string /\
                            String.length sep' = Nat.pred k)
        as (sep' & -> & -> & Hk').
      { destruct Hsep as [-> | ->]; rewrite append_cons in Es;
          injection Es as -> ->; eexists; (split; [reflexivity|]);
          subst k; split; reflexivity. }
      rewrite <- Hk', split_mesh_skip.
      rewrite pop_cons by apply split_mesh_nonempty.
      assert (Hlr : (String.length r <= n)%nat).
      { cbn [String.length] in Hlen. rewrite length_append in Hlen. lia. }
      specialize (IH r EmptyString Hlr).
      destruct (has_separator r) eqn:Er.
      * destruct IH as (a & sep2 & Ea & Hs2 & Hclean).
        exists (String c sep' ++ a)%string, sep2.
        split; [|auto]. rewrite append_assoc, <- Ea. reflexivity.
      * exists EmptyString, (String c sep'). rewrite IH, !append_nil_l.
        split; [reflexivity|]. split; [exact Hsep | exact Er].
    + rewrite bool_decide_eq_false_2 by (intros [? ?]; discriminate). cbn [orb].
      assert (Hls : (String.length s <= n)%nat) by (cbn in Hlen; lia).
      specialize (IH s (cur ++ String c EmptyString)%string Hls).
      destruct (has_separator s).
      * destruct IH as (a & sep & Ea & Hsep & Hclean).
        exists (String c a), sep. rewrite append_cons, <- Ea. auto.
      * rewrite IH, append_assoc. reflexivity.
Qed.


(** The key of a file whose path the pattern does not match: the path. *)
Lemma meshName_whole path :
  has_separator path = false -> meshName path = path.
Proof.
  intros Hm. unfold meshName.
  pose proof (split_mesh_pop (String.length path) path EmptyString (le_n _)) as Hp.
  rewrite Hm in Hp. exact Hp.
Qed.

(** A path that passes the test of the mesh branch through "mesh/" alone is
    one of these: the file is stored under its whole path. *)
Example mesh_directory_key :
  is_mesh_path "bot/mesh/link.stl" = true /\
  meshName "bot/mesh/link.stl" = "bot/mesh/link.stl"%string.
Proof. split; reflexivity. Qed.

(** *** The scan of the uploaded files *)

Lemma scan_file_meshFiles st f :
  meshFiles (scan_file st f) =
  if is_mesh_file f then <[meshName (path_of f) := content f]> (meshFiles st)
  else meshFiles st.
Proof.
  unfold scan_file, is_mesh_file, is_xml, is_mesh_path.
  destruct (endsWith ".xml" (path_of f)); cbn [negb andb].
  - destruct (includes "object" _); [reflexivity|].
    destruct (negb (truthy_str (robotXml st))); reflexivity.
  - destruct (includes "meshes/" (path_of f) || includes "mesh/" (path_of f));
      reflexivity.
Qed.

Lemma scan_file_robotXml st f :
  robotXml (scan_file st f) =
  if is_robot_xml f && negb (truthy_str (robotXml st)) then Some (content f)
  else robotXml st.
Proof.
  unfold scan_file, is_robot_xml, is_xml.
  destruct (endsWith ".xml" (path_of f)); cbn [negb andb].
  - destruct (includes "object" _); cbn [negb andb]; [reflexivity|].
    destruct (negb (truthy_str (robotXml st))); reflexivity.
  - destruct (includes "meshes/" (path_of f) || includes "mesh/" (path_of f));
      reflexivity.
Qed.

Lemma scan_file_objectsXml st f :
  objectsXml (scan_file st f) =
  if is_object_xml f then Some (content f) else objectsXml st.
Proof.
  unfold scan_file, is_object_xml, is_xml.
  destruct (endsWith ".xml" (path_of f)); cbn [negb andb].
  - destruct (includes "object" _); cbn [negb andb]; [reflexivity|].
    destruct (negb (truthy_str (robotXml st))); reflexivity.
  - destruct (includes "meshes/" (path_of f) || includes "mesh/" (path_of f));
      reflexivity.
Qed.

Lemma truthy_nonempty s : truthy_str (Some s) = nonempty s.
Proof. destruct s; reflexivity. Qed.

(** Once a non-empty robot definition is held, it is kept. *)
Lemma scan_robotXml_kept files st :
  truthy_str (robotXml st) = true ->
  robotXml (foldl scan_file st files) = robotXml st.
Proof.
  revert st. induction files as [|f r IH]; intros st Ht; [reflexivity|].
  cbn [foldl].
  assert (E : robotXml (scan_file st f) = robotXml st).
  { rewrite scan_file_robotXml, Ht, andb_false_r. reflexivity. }
  rewrite IH by (rewrite E; exact Ht). exact E.
Qed.

(** The robot definition held after the scan: the content of the first
    non-object [.xml] whose content is not empty; when all of them are empty,
    the empty string. *)
Lemma scan_robotXml files st :
  truthy_str (robotXml st) = false ->
  robotXml (foldl scan_file st files) =
  match List.find (fun f => is_robot_xml f && nonempty (content f)) files with
  | Some f => Some (content f)
  | None => if existsb is_robot_xml files then Some EmptyString else robotXml st
  end.
Proof.
  revert st. induction files as [|f r IH]; intros st Ht; [reflexivity|].
  cbn [foldl List.find existsb].
  pose proof (scan_file_robotXml st f) as E. rewrite Ht in E. cbn [negb] in E.
  rewrite andb_true_r in E.
  destruct (is_robot_xml f); cbn [andb orb].
  - destruct (content f) as [|c s] eqn:Ec; cbn [nonempty].
    + rewrite IH by (rewrite E; reflexivity). rewrite E.
      destruct (List.find _ r); [reflexivity|].
      destruct (existsb is_robot_xml r); reflexivity.
    + rewrite scan_robotXml_kept by (rewrite E; reflexivity).
      rewrite Ec. exact E.
  - rewrite IH by (rewrite E; exact Ht). rewrite E. reflexivity.
Qed.

(** The objects definition held after the scan is the content of the last
    [.xml] whose file name contains "object", wherever it stands. *)
Lemma scan_objectsXml pre f post :
  is_object_xml f = true ->
  (forall g, g ∈ post -> is_object_xml g = false) ->
  objectsXml (scan (pre ++ f :: post)) = Some (content f).
Proof.
  intros Hf Hpost. unfold scan. rewrite foldl_app. cbn [foldl].
  generalize (foldl scan_file scan_init pre). intros st.
  assert (E : objectsXml (scan_file st f) = Some (content f))
    by (rewrite scan_file_objectsXml, Hf; reflexivity).
  revert E. generalize (scan_file st f). clear st.
  induction post as [|g r IH]; intros st E; [exact E|].
  cbn [foldl]. apply IH.
  - intros g' Hin. apply Hpost. by right.
  - rewrite scan_file_objectsXml, (Hpost g) by left. exact E.
Qed.


(** Without empty definitions the loader does what its comment says: the
    first non-object [.xml] is the robot definition, and the load fails
    exactly when there is none. *)
Lemma loadUploadedRobot_nonempty files :
  (forall f, f ∈ files -> is_robot_xml f = true -> nonempty (content f) = true) ->
  match List.find is_robot_xml files with
  | Some f => exists r, loadUploadedRobot files = Ok r /\ up_robotXml r = content f
  | None => loadUploadedRobot files
            = Error "No robot XML file found in uploaded folder"
  end.
Proof.
  intros Hne. unfold loadUploadedRobot, scan.
  rewrite scan_robotXml by reflexivity.
  assert (Ef : List.find (fun f => is_robot_xml f && nonempty (content f)) files
               = List.find is_robot_xml files).
  { induction files as [|f r IH]; [reflexivity|]. cbn [List.find].
    destruct (is_robot_xml f) eqn:Er; cbn [andb].
    - rewrite (Hne f) by (left || exact Er). reflexivity.
    - apply IH. intros g Hin. apply Hne. by right. }
  rewrite Ef. destruct (List.find is_robot_xml files) as [f|] eqn:Efind.
  - apply find_some in Efind as [Hin Hr]. apply list_elem_of_In in Hin.
    specialize (Hne f Hin Hr). destruct (content f); [discriminate|].
    eexists. split; reflexivity.
  - assert (Hex : existsb is_robot_xml files = false).
    { apply not_true_is_false. intros Hex. apply existsb_exists in Hex as (g & Hin & Hg).
      by rewrite (find_none _ _ Efind g Hin) in Hg. }
    rewrite Hex. reflexivity.
Qed.

(** *** loadUploadedRobot: the claims *)

(** C5 at two failing inputs: when the first non-object [.xml] is an empty
    file, the next non-object [.xml] replaces it as the robot definition;
    and an upload whose only non-object [.xml] is empty fails as if it had
    none. *)
Theorem loadUploadedRobot_empty_definition :
  (forall f, f ∈ empty_then_arm -> is_robot_xml f = true) /\
  loadUploadedRobot empty_then_arm =
    Ok {| up_robotXml := "<mujoco/>"; up_objectsXml := None;
          up_meshFiles := ∅; up_robotName := "bot" |} /\
  existsb is_robot_xml only_empty = true /\
  loadUploadedRobot only_empty
    = Error "No robot XML file found in uploaded folder".
Proof.
  split; [|repeat split].
  intros f Hin. unfold empty_then_arm in Hin.
  repeat (apply elem_of_cons in Hin as [->|Hin]; [reflexivity|]).
  inversion Hin.
Qed.




(** *** loadPredefinedRobot *)

Section Predefined.
Context `{Network}.

Lemma try_names_spec robotDir names net log :
  (try_names robotDir names net log).1.1
    = first_fetched (attempts robotDir names net) /\
  (try_names robotDir names net log).2
    = log ++ requested (attempts robotDir names net).
Proof.
  revert net log. induction names as [|n r IH]; intros net log.
  - cbn. by rewrite app_nil_r.
  - cbn [try_names attempts first_fetched requested].
    destruct (fetch (robotDir ++ "/" ++ n) net) as [o net1] eqn:Ef.
    cbn [fst snd].
    destruct o as [|[|] [body|]]; cbn [fetched];
      try (destruct (IH net1 (log ++ [(robotDir ++ "/" ++ n)%string])) as [E1 E2];
           rewrite E1, E2, <- app_assoc; split; reflexivity).
    split; reflexivity.
Qed.

(** The candidates are requested in the order [name.xml], [robot.xml],
    [main.xml], and none after the first success. *)
Lemma requested_candidates robotName robotDir net :
  exists k,
    (1 <= k <= 3)%nat /\
    requested (attempts robotDir (xmlNames robotName) net)
    = take k [ (robotDir ++ "/" ++ (robotName ++ ".xml"))%string;
               (robotDir ++ "/" ++ "robot.xml")%string;
               (robotDir ++ "/" ++ "main.xml")%string ].
Proof.
  unfold xmlNames. cbn [attempts requested].
  destruct (fetched _); [exists 1%nat; split; [lia | reflexivity]|].
  destruct (fetched _); [exists 2%nat; split; [lia | reflexivity]|].
  exists 3%nat. split; [lia|]. destruct (fetched _); reflexivity.
Qed.

(** The requests of a call: the candidates, then [objects.xml] when a
    non-empty definition was found. *)
Lemma loadPredefinedRobot_requests robotName basePath net :
  let robotDir := (basePath ++ "/" ++ robotName)%string in
  let A := attempts robotDir (xmlNames robotName) net in
  (loadPredefinedRobot robotName basePath net).2 =
  requested A ++
  match (loadPredefinedRobot robotName basePath net).1.1 with
  | Ok _ => [(robotDir ++ "/objects.xml")%string]
  | Error _ => []
  end.
Proof.
  intros robotDir A. unfold loadPredefinedRobot. fold robotDir.
  destruct (try_names robotDir (xmlNames robotName) net []) as [[rx net1] log1] eqn:Et.
  pose proof (try_names_spec robotDir (xmlNames robotName) net []) as [_ E2].
  rewrite Et in E2. cbn [snd app] in E2. fold A in E2. subst log1.
  destruct rx as [[|c s]|]; cbn [fst snd]; rewrite ?app_nil_r; try reflexivity.
  destruct (fetch (robotDir ++ "/objects.xml") net1) as [o net2]. reflexivity.
Qed.

(** Without empty bodies: the first successful candidate supplies the
    definition, the call fails exactly when no candidate succeeds, and
    [objects.xml] is requested last and may be missing. *)
Lemma loadPredefinedRobot_nonempty robotName basePath net :
  let robotDir := (basePath ++ "/" ++ robotName)%string in
  let A := attempts robotDir (xmlNames robotName) net in
  (forall body, first_fetched A = Some body -> nonempty body = true) ->
  match first_fetched A with
  | Some body =>
      exists r net1,
        (loadPredefinedRobot robotName basePath net).1.1 = Ok r /\
        pre_robotXml r = body /\
        pre_objectsXml r = fetched (fetch (robotDir ++ "/objects.xml") net1).1 /\
        (loadPredefinedRobot robotName basePath net).2
        = requested A ++ [(robotDir ++ "/objects.xml")%string]
  | None =>
      (loadPredefinedRobot robotName basePath net).1.1
      = Error ("Could not find robot XML in " ++ robotDir)%string /\
      (loadPredefinedRobot robotName basePath net).2 = requested A
  end.
Proof.
  intros robotDir A Hne. unfold loadPredefinedRobot. fold robotDir.
  destruct (try_names robotDir (xmlNames robotName) net []) as [[rx net1] log1] eqn:Et.
  pose proof (try_names_spec robotDir (xmlNames robotName) net []) as [E1 E2].
  rewrite Et in E1, E2. cbn [fst snd app] in E1, E2. fold A in E1, E2.
  rewrite <- E1. destruct rx as [body|].
  - symmetry in E1. specialize (Hne body E1). destruct body as [|c s]; [discriminate|].
    destruct (fetch (robotDir ++ "/objects.xml") net1) as [o net2] eqn:Eo.
    exists {| pre_robotXml := String c s; pre_objectsXml := fetched o;
              pre_robotDir := robotDir |}, net1.
    rewrite Eo. cbn [fst snd pre_robotXml pre_objectsXml]. rewrite E2.
    repeat split.
  - cbn [fst snd]. rewrite E2. split; reflexivity.
Qed.

Lemma first_fetched_None (l : list (string * FetchOutcome)) :
  first_fetched l = None <-> Forall (fun a => fetched a.2 = None) l.
Proof.
  induction l as [|[u o] r IH]; cbn [first_fetched].
  - split; [constructor | reflexivity].
  - destruct (fetched o) eqn:Eo.
    + split; [discriminate|]. intros Hall. apply Forall_cons in Hall as [Ho _].
      cbn in Ho. congruence.
    + rewrite IH. split; [intros Hr; constructor; [exact Eo | exact Hr]|].
      intros Hall. by apply Forall_cons in Hall as [_ Hr].
Qed.

End Predefined.

(** C6 at a failing input: [arm.xml] is fetched successfully but is empty.
    The search stops there ([robot.xml], which holds a definition, is never
    requested) and the call fails although not all candidates failed. *)
Theorem loadPredefinedRobot_empty_body :
  fetched (@fetch empty_arm_server "./assets/robots/arm/arm.xml" tt).1
    = Some EmptyString /\
  fetched (@fetch empty_arm_server "./assets/robots/arm/robot.xml" tt).1
    = Some "<mujoco/>"%string /\
  @loadPredefinedRobot empty_arm_server "arm" default_basePath tt
  = (Error "Could not find robot XML in ./assets/robots/arm", tt,
     ["./assets/robots/arm/arm.xml"%string]).
Proof. repeat split. Qed.

(** On a server that holds only [main.xml], the three candidates are
    requested in order, the third supplies the definition, and the missing
    [objects.xml] yields a null objects definition. *)
Example loadPredefinedRobot_main_only :
  @loadPredefinedRobot main_only_server "arm" default_basePath tt
  = (Ok {| pre_robotXml := "<mujoco/>"; pre_objectsXml := None;
           pre_robotDir := "./assets/robots/arm" |}, tt,
     [ "./assets/robots/arm/arm.xml"; "./assets/robots/arm/robot.xml";
       "./assets/robots/arm/main.xml"; "./assets/robots/arm/objects.xml" ]%string).
Proof. reflexivity. Qed.

(** *** Further properties of loadUploadedRobot *)

Lemma scan_file_robotName st f :
  robotName (scan_file st f) =
  if nested f && negb (truthy_str (robotName st))
  then head (split "/" (path_of f)) else robotName st.
Proof.
  unfold scan_file, nested.
  destruct (endsWith ".xml" (path_of f)).
  - destruct (includes "object" _); [reflexivity|].
    destruct (negb (truthy_str (robotXml st))); reflexivity.
  - destruct (includes "meshes/" (path_of f) || includes "mesh/" (path_of f));
      reflexivity.
Qed.

Lemma scan_robotName_kept files st :
  truthy_str (robotName st) = true ->
  robotName (foldl scan_file st files) = robotName st.
Proof.
  revert st. induction files as [|f r IH]; intros st Ht; [reflexivity|].
  cbn [foldl].
  assert (E : robotName (scan_file st f) = robotName st)
    by (rewrite scan_file_robotName, Ht, andb_false_r; reflexivity).
  rewrite IH by (rewrite E; exact Ht). exact E.
Qed.

Lemma scan_robotName files st :
  truthy_str (robotName st) = false ->
  match List.find names_robot files with
  | Some f => robotName (foldl scan_file st files) = Some (first_segment f)
  | None => truthy_str (robotName (foldl scan_file st files)) = false
  end.
Proof.
  revert st. induction files as [|f r IH]; intros st Ht; [exact Ht|].
  cbn [foldl List.find]. unfold names_robot at 1, first_segment.
  pose proof (scan_file_robotName st f) as E. rewrite Ht in E.
  cbn [negb] in E. rewrite andb_true_r in E.
  destruct (nested f) eqn:En; cbn [andb].
  - destruct (head (split "/" (path_of f))) as [seg|] eqn:Eh.
    + cbn [default from_option id]. destruct seg as [|c s]; cbn [nonempty].
      * apply IH. rewrite E. reflexivity.
      * rewrite scan_robotName_kept by (rewrite E; reflexivity).
        rewrite Eh. exact E.
    + cbn [default from_option id nonempty]. apply IH. rewrite E. reflexivity.
  - apply IH. rewrite E. exact Ht.
Qed.

(** X10: the robot name of a loaded upload is the first path segment of the
    first file that lies under a directory whose name is not empty, and
    "user_robot" when there is no such file. *)
Theorem uploaded_robot_name files r :
  loadUploadedRobot files = Ok r ->
  up_robotName r =
  match List.find names_robot files with
  | Some f => first_segment f
  | None => "user_robot"%string
  end.
Proof.
  unfold loadUploadedRobot.
  destruct (robotXml (scan files)) as [[|c s]|]; try discriminate.
  intros [= <-]. cbn [up_robotName].
  pose proof (scan_robotName files scan_init eq_refl) as Hn. fold (scan files) in Hn.
  destruct (List.find names_robot files) as [f|] eqn:Ef.
  - rewrite Hn. apply find_some in Ef as [_ Hf]. unfold names_robot in Hf.
    apply andb_true_iff in Hf as [_ Hf]. rewrite truthy_nonempty, Hf. reflexivity.
  - rewrite Hn. reflexivity.
Qed.

Lemma uploaded_robot_name_witness :
  exists r, loadUploadedRobot robot_with_mesh = Ok r /\ up_robotName r = "bot"%string.
Proof.
  destruct (loadUploadedRobot robot_with_mesh) as [r|] eqn:E; [|discriminate].
  exists r. split; [reflexivity|].
  exact (uploaded_robot_name robot_with_mesh r E).
Defined.

Lemma scan_snoc files f : scan (files ++ [f]) = scan_file (scan files) f.
Proof. unfold scan. by rewrite foldl_app. Qed.

(** X11: after the scan, the mesh map holds under each key the content of
    the last non-[.xml] mesh file with that key, and holds nothing under a
    key no such file has. *)
Theorem mesh_files_lookup files k :
  meshFiles (scan files) !! k =
  content <$>
    List.find (fun f => is_mesh_file f && String.eqb (meshName (path_of f)) k)
              (rev files).
Proof.
  induction files as [|f l IH] using rev_ind; [reflexivity|].
  rewrite scan_snoc, rev_unit. cbn [List.find].
  rewrite scan_file_meshFiles.
  destruct (is_mesh_file f); cbn [andb]; [|exact IH].
  rewrite lookup_insert. destruct (String.eqb_spec (meshName (path_of f)) k).
  - rewrite decide_True by assumption. reflexivity.
  - rewrite decide_False by assumption. exact IH.
Qed.

(** X12: after the scan, the objects definition is the content of the last
    [.xml] file whose name contains "object", and null when there is none. *)
Theorem objects_definition_last files :
  objectsXml (scan files) = content <$> List.find is_object_xml (rev files).
Proof.
  induction files as [|f l IH] using rev_ind; [reflexivity|].
  rewrite scan_snoc, rev_unit. cbn [List.find].
  rewrite scan_file_objectsXml.
  destruct (is_object_xml f); [reflexivity | exact IH].
Qed.

(** X13: the load succeeds exactly when some non-object [.xml] file has
    content; the definition returned is then the content of the first such
    file, it is not empty, nor is the robot name, and the objects
    definition and the mesh map are those of the scan. *)
Theorem upload_result files :
  match List.find (fun f => is_robot_xml f && nonempty (content f)) files with
  | Some f =>
      exists r,
        loadUploadedRobot files = Ok r /\
        up_robotXml r = content f /\
        nonempty (up_robotXml r) = true /\
        nonempty (up_robotName r) = true /\
        up_objectsXml r = objectsXml (scan files) /\
        up_meshFiles r = meshFiles (scan files)
  | None =>
      loadUploadedRobot files
      = Error "No robot XML file found in uploaded folder"
  end.
Proof.
  unfold loadUploadedRobot.
  pose proof (scan_robotXml files scan_init eq_refl) as Hx. fold (scan files) in Hx.
  rewrite Hx.
  destruct (List.find _ files) as [f|] eqn:Ef.
  - apply find_some in Ef as [_ Hf]. apply andb_true_iff in Hf as [_ Hf].
    destruct (content f) as [|c s]; [discriminate|].
    eexists. split; [reflexivity|]. cbn [up_robotXml up_robotName up_objectsXml
                                         up_meshFiles nonempty].
    repeat split.
    destruct (robotName (scan files)) as [[|c' s']|]; reflexivity.
  - cbn [scan_init robotXml]. destruct (existsb is_robot_xml files); reflexivity.
Qed.

(** Two scan states with the same definitions and meshes. *)
Lemma scan_file_same st st' f :
  robotXml st = robotXml st' -> objectsXml st = objectsXml st' ->
  meshFiles st = meshFiles st' ->
  robotXml (scan_file st f) = robotXml (scan_file st' f) /\
  objectsXml (scan_file st f) = objectsXml (scan_file st' f) /\
  meshFiles (scan_file st f) = meshFiles (scan_file st' f).
Proof.
  intros E1 E2 E3.
  rewrite !scan_file_robotXml, !scan_file_objectsXml, !scan_file_meshFiles,
    E1, E2, E3. auto.
Qed.

Lemma scan_file_ignored st f :
  contributes f = false ->
  robotXml (scan_file st f) = robotXml st /\
  objectsXml (scan_file st f) = objectsXml st /\
  meshFiles (scan_file st f) = meshFiles st.
Proof.
  unfold contributes. intros Hc. apply orb_false_iff in Hc as [Hx Hm].
  rewrite scan_file_robotXml, scan_file_objectsXml, scan_file_meshFiles.
  unfold is_robot_xml, is_object_xml, is_mesh_file. rewrite Hx, Hm. auto.
Qed.

(** X14: files that are neither [.xml] files nor on a mesh path contribute
    no content: dropping them from the upload changes neither definition
    nor the mesh map (they can only name the robot). *)
Theorem other_files_ignored files :
  robotXml (scan files) = robotXml (scan (List.filter contributes files)) /\
  objectsXml (scan files) = objectsXml (scan (List.filter contributes files)) /\
  meshFiles (scan files) = meshFiles (scan (List.filter contributes files)).
Proof.
  unfold scan.
  assert (Hgen : forall st st',
    robotXml st = robotXml st' -> objectsXml st = objectsXml st' ->
    meshFiles st = meshFiles st' ->
    robotXml (foldl scan_file st files)
      = robotXml (foldl scan_file st' (List.filter contributes files)) /\
    objectsXml (foldl scan_file st files)
      = objectsXml (foldl scan_file st' (List.filter contributes files)) /\
    meshFiles (foldl scan_file st files)
      = meshFiles (foldl scan_file st' (List.filter contributes files))).
  { induction files as [|f r IH]; intros st st' E1 E2 E3; [auto|].
    cbn [foldl List.filter]. destruct (contributes f) eqn:Ec.
    - cbn [foldl].
      destruct (scan_file_same st st' f E1 E2 E3) as (F1 & F2 & F3).
      by apply IH.
    - destruct (scan_file_ignored st f Ec) as (F1 & F2 & F3).
      apply IH; congruence. }
  by apply Hgen.
Qed.

(** *** cleanupRobot *)

Section BookkeepingFacts.
Context {Info : Type} (truthy_info : Info -> bool).

Lemma Map_get_delete_ne (loaded : list (string * Info)) n n' :
  n' <> n -> Map_get Info (Map_delete Info loaded n) n' = Map_get Info loaded n'.
Proof.
  intros Hne. induction loaded as [|[m v] r IH]; [reflexivity|].
  unfold Map_delete in *. cbn [List.filter fst Map_get].
  destruct (String.eqb_spec m n) as [->|Hm]; cbn [negb].
  - destruct (String.eqb_spec n n'); [congruence | exact IH].
  - cbn [Map_get]. destruct (String.eqb m n'); [reflexivity | exact IH].
Qed.

Lemma Map_get_delete_eq (loaded : list (string * Info)) n :
  Map_get Info (Map_delete Info loaded n) n = None.
Proof.
  induction loaded as [|[m v] r IH]; [reflexivity|].
  unfold Map_delete in *. cbn [List.filter fst].
  destruct (String.eqb_spec m n) as [->|Hm]; cbn [negb]; [exact IH|].
  cbn [Map_get]. destruct (String.eqb_spec m n); [congruence | exact IH].
Qed.

Lemma Map_delete_keys (loaded : list (string * Info)) n :
  (Map_delete Info loaded n).*1
  = List.filter (fun k => negb (String.eqb k n)) loaded.*1.
Proof.
  induction loaded as [|[m v] r IH]; [reflexivity|].
  unfold Map_delete in *. rewrite fmap_cons. cbn [List.filter fst].
  destruct (negb (String.eqb m n)); [rewrite fmap_cons, IH|]; auto.
Qed.

(** X15: [cleanupRobot] removes the named entry (when its value is truthy)
    and nothing else: the other robots keep their entries and their order,
    an unknown name changes nothing, and a second call changes nothing
    more. *)
Theorem cleanupRobot_removes_one (loaded : list (string * Info)) n :
  NoDup loaded.*1 ->
  NoDup (cleanupRobot Info truthy_info n loaded).*1 /\
  (forall n', n' <> n ->
     Map_get Info (cleanupRobot Info truthy_info n loaded) n'
     = Map_get Info loaded n') /\
  (Map_get Info loaded n = None ->
     cleanupRobot Info truthy_info n loaded = loaded) /\
  (forall v, Map_get Info loaded n = Some v -> truthy_info v = true ->
     Map_get Info (cleanupRobot Info truthy_info n loaded) n = None /\
     getLoadedRobots Info (cleanupRobot Info truthy_info n loaded)
     = List.filter (fun k => negb (String.eqb k n)) (getLoadedRobots Info loaded)) /\
  cleanupRobot Info truthy_info n (cleanupRobot Info truthy_info n loaded)
  = cleanupRobot Info truthy_info n loaded.
Proof.
  intros Hnd. unfold cleanupRobot, getLoadedRobots.
  destruct (Map_get Info loaded n) as [v|] eqn:Eg.
  - destruct (truthy_info v) eqn:Et.
    + split; [|split; [|split; [|split]]].
      * rewrite Map_delete_keys. apply NoDup_ListNoDup, List.NoDup_filter.
        by apply NoDup_ListNoDup.
      * intros n' Hne. by apply Map_get_delete_ne.
      * discriminate.
      * intros _ _ _. split; [apply Map_get_delete_eq | apply Map_delete_keys].
      * rewrite Map_get_delete_eq. reflexivity.
    + split; [exact Hnd|]. split; [reflexivity|]. split; [discriminate|].
      split; [intros v' [= <-]; congruence|]. rewrite Eg, Et. reflexivity.
  - split; [exact Hnd|]. split; [reflexivity|]. split; [reflexivity|].
    split; [discriminate|]. rewrite Eg. reflexivity.
Qed.

End BookkeepingFacts.

Lemma cleanupRobot_removes_one_witness :
  getLoadedRobots nat
    (cleanupRobot nat (fun _ => true) "panda"
       [("xlerobot"%string, 1%nat); ("panda"%string, 2%nat);
        ("humanoid"%string, 3%nat)])
  = ["xlerobot"; "humanoid"]%string.
Proof.
  destruct (cleanupRobot_removes_one (fun _ : nat => true)
              [("xlerobot"%string, 1%nat); ("panda"%string, 2%nat);
               ("humanoid"%string, 3%nat)] "panda") as (_ & _ & _ & Hrm & _).
  - apply (bool_decide_unpack _). vm_compute. reflexivity.
  - destruct (Hrm 2%nat eq_refl eq_refl) as [_ ->]. reflexivity.
Defined.

(** *** Further properties of loadPredefinedRobot *)

Section PredefinedMore.
Context `{Network}.

(** X16: a call requests at least one and at most three candidates, in the
    order [name.xml], [robot.xml], [main.xml], then [objects.xml] exactly
    when it succeeds, and nothing else: at most four requests. *)
Theorem predefined_requests robotName basePath net :
  let robotDir := (basePath ++ "/" ++ robotName)%string in
  let res := loadPredefinedRobot robotName basePath net in
  exists k,
    (1 <= k <= 3)%nat /\
    res.2 =
      take k [ (robotDir ++ "/" ++ (robotName ++ ".xml"))%string;
               (robotDir ++ "/" ++ "robot.xml")%string;
               (robotDir ++ "/" ++ "main.xml")%string ]
      ++ match res.1.1 with
         | Ok _ => [(robotDir ++ "/objects.xml")%string]
         | Error _ => []
         end /\
    (length res.2 <= 4)%nat.
Proof.
  intros robotDir res.
  destruct (requested_candidates robotName robotDir net) as (k & Hk & Hreq).
  exists k. split; [exact Hk|].
  pose proof (loadPredefinedRobot_requests robotName basePath net) as Hlog.
  cbv zeta in Hlog. fold robotDir res in Hlog. rewrite Hreq in Hlog.
  split; [exact Hlog|]. rewrite Hlog, length_app, length_take. cbn [length].
  destruct (res.1.1); cbn [length]; lia.
Qed.

(** X17: a successful call returns a non-empty definition, the body of the
    first candidate that was fetched, together with the robot's directory
    and the body of [objects.xml] if that was fetched; a failed call reports
    the directory it searched. *)
Theorem predefined_result robotName basePath net :
  let robotDir := (basePath ++ "/" ++ robotName)%string in
  let A := attempts robotDir (xmlNames robotName) net in
  let net1 := (try_names robotDir (xmlNames robotName) net []).1.2 in
  let res := loadPredefinedRobot robotName basePath net in
  (forall r, res.1.1 = Ok r ->
     nonempty (pre_robotXml r) = true /\
     first_fetched A = Some (pre_robotXml r) /\
     pre_robotDir r = robotDir /\
     pre_objectsXml r = fetched (fetch (robotDir ++ "/objects.xml") net1).1) /\
  (forall msg, res.1.1 = Error msg ->
     msg = ("Could not find robot XML in " ++ robotDir)%string).
Proof.
  intros robotDir A net1 res. unfold res, loadPredefinedRobot. fold robotDir.
  pose proof (try_names_spec robotDir (xmlNames robotName) net []) as [E1 _].
  fold A in E1. unfold net1.
  destruct (try_names robotDir (xmlNames robotName) net []) as [[rx n1] log1].
  cbn [fst snd] in *. rewrite <- E1.
  destruct rx as [[|c s]|].
  - split; [discriminate | by intros msg [= <-]].
  - destruct (fetch (robotDir ++ "/objects.xml") n1) as [o n2]. cbn [fst snd].
    split; [|discriminate]. intros r [= <-]. repeat split.
  - split; [discriminate | by intros msg [= <-]].
Qed.

End PredefinedMore.

Lemma predefined_result_witness :
  exists r,
    (@loadPredefinedRobot main_only_server "arm" default_basePath tt).1.1 = Ok r /\
    nonempty (pre_robotXml r) = true /\
    pre_robotDir r = "./assets/robots/arm"%string.
Proof.
  destruct (@predefined_result main_only_server "arm" default_basePath tt)
    as [Hok _].
  destruct ((@loadPredefinedRobot main_only_server "arm" default_basePath tt).1.1)
    as [r|] eqn:E; [|discriminate].
  exists r. destruct (Hok r eq_refl) as (Hn & _ & Hd & _). auto.
Defined.

End RobotLoaderFacts.

(** ** MuJoCoDemo.render *)

Module MuJoCoDemoFacts.
Import MuJoCoDemo.
Local Open Scope Q_scope.

Lemma Qnat_succ (n : nat) :
  inject_Z (Z.of_nat (S n)) == inject_Z (Z.of_nat n) + 1.
Proof.
  rewrite Nat2Z.inj_succ. unfold Z.succ. rewrite inject_Z_plus. reflexivity.
Qed.

(** Enough turns to cover a backlog: [gap <= n * dt] for some [n]. *)
Lemma enough_turns (gap dt : Q) :
  0 < dt -> exists n : nat, gap <= inject_Z (Z.of_nat n) * dt.
Proof.
  intros Hdt. exists (Z.to_nat (Qceiling (gap / dt))).
  assert (Hne : ~ dt == 0) by lra.
  pose proof (Qle_ceiling (gap / dt)) as Hc.
  pose proof (Qmult_div_r gap dt Hne) as Hg.
  assert (Hz : inject_Z (Qceiling (gap / dt))
               <= inject_Z (Z.of_nat (Z.to_nat (Qceiling (gap / dt))))).
  { rewrite <- Zle_Qle. lia. }
  assert (Hm : gap / dt * dt
               <= inject_Z (Z.of_nat (Z.to_nat (Qceiling (gap / dt)))) * dt).
  { apply Qmult_le_compat_r; lra. }
  lra.
Qed.

Section RenderFacts.
Context `{Host}.

(** *** What a turn of the loop leaves alone *)

Lemma noise_step_frame ts st :
  model (noise_step ts st) = model st /\
  mujoco_time (noise_step ts st) = mujoco_time st /\
  dragStateManager (noise_step ts st) = dragStateManager st /\
  scene (noise_step ts st) = scene st /\
  qfrc_applied (data (noise_step ts st)) = qfrc_applied (data st).
Proof.
  unfold noise_step. destruct (Qltb 0 (ctrlnoisestd (params st))); [|auto].
  destruct (jitter _ _ _ _ _ _) as [[c a] g]. auto.
Qed.

Lemma perturb_step_frame st :
  model (perturb_step st) = model st /\
  mujoco_time (perturb_step st) = mujoco_time st /\
  params (perturb_step st) = params st /\
  rng (perturb_step st) = rng st /\
  ctrl (data (perturb_step st)) = ctrl (data st).
Proof.
  unfold perturb_step. destruct (dragged_body (dragStateManager st)); auto.
Qed.

Lemma before_step_time ts st : mujoco_time (before_step ts st) = mujoco_time st.
Proof.
  unfold before_step.
  destruct (perturb_step_frame (noise_step ts st)) as (_ & -> & _).
  apply noise_step_frame.
Qed.

(** Each turn advances the simulation time (kept in milliseconds) by the
    timestep (given in seconds). *)
Lemma loop_body_time ts st :
  mujoco_time (loop_body ts st) = mujoco_time st + ts * 1000.
Proof. unfold loop_body. cbn [mujoco_time]. by rewrite before_step_time. Qed.

Lemma loop_body_model ts st : model (loop_body ts st) = model st.
Proof.
  unfold loop_body, before_step. cbn [model].
  destruct (perturb_step_frame (noise_step ts st)) as (-> & _).
  apply noise_step_frame.
Qed.

(** *** The while loop *)

Lemma while_loop_mono timeMS ts n n' st r :
  (n <= n')%nat ->
  while_loop n timeMS ts st = Some r -> while_loop n' timeMS ts st = Some r.
Proof.
  revert n' st r. induction n as [|n IH]; intros n' st r Hle.
  - cbn [while_loop]. destruct n'; cbn [while_loop];
      destruct (Qltb (mujoco_time st) timeMS); try discriminate; auto.
  - destruct n' as [|n']; [lia|]. cbn [while_loop].
    destruct (Qltb (mujoco_time st) timeMS); [|auto].
    destruct (while_loop n timeMS ts (loop_body ts st)) as [[st' log]|] eqn:E;
      [|discriminate].
    rewrite (IH n' _ _ ltac:(lia) E). auto.
Qed.

Lemma while_loop_run timeMS ts n st :
  0 < ts * 1000 ->
  timeMS - mujoco_time st <= inject_Z (Z.of_nat n) * (ts * 1000) ->
  exists st' log,
    while_loop n timeMS ts st = Some (st', log) /\
    mujoco_time st' ==
      mujoco_time st + inject_Z (Z.of_nat (length log)) * (ts * 1000) /\
    timeMS <= mujoco_time st' /\
    (log <> [] -> mujoco_time st' - ts * 1000 < timeMS) /\
    (mujoco_time st < timeMS -> log <> []) /\
    model st' = model st.
Proof.
  intros Hdt. revert st. induction n as [|n IH]; intros st Hgap.
  - exists st, []. cbn [while_loop].
    assert (Hge : timeMS <= mujoco_time st).
    { change (inject_Z (Z.of_nat 0)) with 0 in Hgap. lra. }
    rewrite (proj2 (Qltb_ge _ _) Hge). cbn [length].
    change (inject_Z (Z.of_nat 0)) with 0.
    split; [reflexivity|]. split; [lra|]. split; [exact Hge|].
    split; [congruence|]. split; [intros; lra | reflexivity].
  - cbn [while_loop]. destruct (Qltb (mujoco_time st) timeMS) eqn:Elt.
    + apply Qltb_lt in Elt.
      destruct (IH (loop_body ts st)) as (st' & log & E & Ht & Hge & Hlast & _ & Hm).
      { rewrite loop_body_time. rewrite Qnat_succ in Hgap. lra. }
      rewrite loop_body_time in Ht.
      exists st', (data (before_step ts st) :: log). rewrite E.
      split; [reflexivity|]. cbn [length]. rewrite Qnat_succ.
      split; [lra|]. split; [exact Hge|]. split; [|split].
      * intros _. destruct log as [|d log'].
        -- cbn [length] in Ht. change (inject_Z (Z.of_nat 0)) with 0 in Ht. lra.
        -- apply Hlast. discriminate.
      * intros _. discriminate.
      * rewrite Hm. apply loop_body_model.
    + apply Qltb_ge in Elt. exists st, []. cbn [length].
      change (inject_Z (Z.of_nat 0)) with 0.
      split; [reflexivity|]. split; [lra|]. split; [exact Elt|].
      split; [congruence|]. split; [intros; lra | reflexivity].
Qed.

Lemma while_loop_done timeMS ts n st :
  timeMS <= mujoco_time st -> while_loop n timeMS ts st = Some (st, []).
Proof.
  intros Hge. apply Qltb_ge in Hge. destruct n; cbn [while_loop]; by rewrite Hge.
Qed.

Lemma render_unpaused fuel timeMS st :
  paused (params st) = false ->
  render fuel timeMS st =
  match while_loop fuel timeMS (opt_timestep (model st))
                   (catch_up timeMS (set_scene st (controls_update (scene st)))) with
  | Some (st1, log) => Some (finish_frame st1, log)
  | None => None
  end.
Proof. intros Hp. unfold render. cbn [set_scene params model]. by rewrite Hp. Qed.

(** With a timestep that is not positive the loop cannot catch up: no
    amount of fuel completes it. *)
Lemma while_loop_stuck timeMS ts n st :
  ts * 1000 <= 0 -> mujoco_time st < timeMS ->
  while_loop n timeMS ts st = None.
Proof.
  intros Hts. revert st. induction n as [|n IH]; intros st Hlt;
    cbn [while_loop]; rewrite (proj2 (Qltb_lt _ _) Hlt); [reflexivity|].
  rewrite IH; [reflexivity|]. rewrite loop_body_time. lra.
Qed.

(** *** The turns of the loop *)

Lemma turns_shift n ts st : turns (S n) ts st = turns n ts (loop_body ts st).
Proof.
  induction n as [|n IH]; [reflexivity|].
  change (turns (S (S n)) ts st) with (loop_body ts (turns (S n) ts st)).
  rewrite IH. reflexivity.
Qed.

Lemma step_inputs_shift n ts st :
  step_inputs (S n) ts st
  = data (before_step ts st) :: step_inputs n ts (loop_body ts st).
Proof.
  unfold step_inputs. cbn [seq]. rewrite fmap_cons. f_equal.
  rewrite <- fmap_S_seq, <- list_fmap_compose.
  apply list_fmap_ext. intros i j _. cbn [compose]. by rewrite turns_shift.
Qed.

Lemma step_inputs_length n ts st : length (step_inputs n ts st) = n.
Proof. unfold step_inputs. by rewrite length_fmap, length_seq. Qed.

Lemma step_inputs_lookup n ts st i d :
  step_inputs n ts st !! i = Some d ->
  (i < n)%nat /\ d = data (before_step ts (turns i ts st)).
Proof.
  unfold step_inputs. rewrite list_lookup_fmap.
  destruct (seq 0 n !! i) as [j|] eqn:E; [|discriminate].
  apply lookup_seq in E as [-> Hi]. intros [= <-]. auto.
Qed.

Lemma turns_model n ts st : model (turns n ts st) = model st.
Proof.
  induction n as [|n IH]; [reflexivity|]. cbn [turns].
  by rewrite loop_body_model.
Qed.

(** Each turn is one physics step, on the data [before_step] prepared. *)
Lemma loop_body_data ts st :
  data (loop_body ts st) = mj_step (model st) (data (before_step ts st)).
Proof.
  unfold loop_body. cbn [data]. f_equal. unfold before_step.
  destruct (perturb_step_frame (noise_step ts st)) as (-> & _).
  apply noise_step_frame.
Qed.

(** The loop, when it ends, has run its turns one after the other. *)
Lemma while_loop_turns timeMS ts n st st' log :
  while_loop n timeMS ts st = Some (st', log) ->
  st' = turns (length log) ts st /\ log = step_inputs (length log) ts st.
Proof.
  revert st st' log. induction n as [|n IH]; intros st st' log;
    cbn [while_loop]; destruct (Qltb (mujoco_time st) timeMS);
    try discriminate; try (intros [= <- <-]; split; reflexivity).
  destruct (while_loop n timeMS ts (loop_body ts st)) as [[s1 l1]|] eqn:E;
    [|discriminate].
  intros [= <- <-]. destruct (IH _ _ _ E) as [Hs Hl]. cbn [length].
  rewrite turns_shift, step_inputs_shift, <- Hs, <- Hl. split; reflexivity.
Qed.

Lemma catch_up_frame timeMS st :
  model (catch_up timeMS st) = model st /\
  data (catch_up timeMS st) = data st /\
  dragStateManager (catch_up timeMS st) = dragStateManager st.
Proof. unfold catch_up. destruct (Qltb _ _); auto. Qed.

Lemma Qnat_nonneg (n : nat) : 0 <= inject_Z (Z.of_nat n).
Proof. change 0 with (inject_Z 0). rewrite <- Zle_Qle. lia. Qed.

(** An unpaused frame with a positive timestep completes: with enough fuel
    [render] returns the state after some number [n] of turns and the data
    these turns handed to [mj_step]; [n] is the least number of timesteps
    that brings the simulation time to the wall time. *)
Lemma render_runs timeMS st :
  paused (params st) = false ->
  0 < opt_timestep (model st) ->
  let ts := opt_timestep (model st) in
  let s0 := catch_up timeMS (set_scene st (controls_update (scene st))) in
  exists fuel n,
    (forall fuel', (fuel <= fuel')%nat ->
       render fuel' timeMS st
       = Some (finish_frame (turns n ts s0), step_inputs n ts s0)) /\
    mujoco_time (turns n ts s0) ==
      mujoco_time s0 + inject_Z (Z.of_nat n) * (ts * 1000) /\
    timeMS <= mujoco_time (turns n ts s0) /\
    (n <> 0%nat -> mujoco_time (turns n ts s0) - ts * 1000 < timeMS) /\
    (mujoco_time s0 < timeMS -> n <> 0%nat).
Proof.
  intros Hp Hts ts s0.
  destruct (enough_turns (timeMS - mujoco_time s0) (ts * 1000)) as [k Hk];
    [unfold ts; lra|].
  destruct (while_loop_run timeMS ts k s0)
    as (st1 & log & E & Ht & Hge & Hlast & Hfirst & _);
    [unfold ts; lra | exact Hk |].
  destruct (while_loop_turns _ _ _ _ _ _ E) as [Hs Hl].
  exists k, (length log). rewrite <- Hs, <- Hl.
  split; [|split; [exact Ht|]; split; [exact Hge|]; split].
  - intros fuel' Hle. rewrite render_unpaused by exact Hp. fold ts s0.
    rewrite (while_loop_mono _ _ _ _ _ _ Hle E). reflexivity.
  - intros Hn. apply Hlast. intros ->. by apply Hn.
  - intros Hlt Hz. apply (Hfirst Hlt). by destruct log.
Qed.

(** Whatever fuel completes a frame, the result is the same. *)
Lemma render_deterministic timeMS st f1 f2 r1 r2 :
  render f1 timeMS st = Some r1 -> render f2 timeMS st = Some r2 -> r1 = r2.
Proof.
  unfold render. destruct (negb _); [|congruence].
  destruct (while_loop f1 _ _ _) as [[s1 l1]|] eqn:E1; [|discriminate].
  destruct (while_loop f2 _ _ _) as [[s2 l2]|] eqn:E2; [|discriminate].
  intros [= <-] [= <-].
  pose proof (while_loop_mono _ _ f1 (Nat.max f1 f2) _ _ ltac:(lia) E1) as F1.
  pose proof (while_loop_mono _ _ f2 (Nat.max f1 f2) _ _ ltac:(lia) E2) as F2.
  rewrite F1 in F2. by injection F2 as <- <-.
Qed.

(** *** The clock *)

(** C1: on a frame rendered while unpaused (with a positive timestep) the
    frame completes, and: when wall time minus simulation time exceeds 35 ms,
    simulation time becomes the wall time, no physics step runs and the data
    is left alone; otherwise the physics step runs once per turn, each turn
    adding the timestep (in milliseconds: timestep * 1000) to the simulation
    time, and the turns stop as soon as simulation time is at least the wall
    time. The log has one entry per physics step: entry [i] is the data the
    [i]-th turn prepared, and the data after that turn is [mj_step] of it;
    the frame ends in the state after the last turn, with the data the last
    physics step returned (the data it started with when no step ran). *)
Theorem render_clock timeMS st :
  paused (params st) = false ->
  0 < opt_timestep (model st) ->
  let ts := opt_timestep (model st) in
  let dt := ts * 1000 in
  let s0 := catch_up timeMS (set_scene st (controls_update (scene st))) in
  exists fuel st' log,
    (forall fuel', (fuel <= fuel')%nat -> render fuel' timeMS st = Some (st', log)) /\
    st' = finish_frame (turns (length log) ts s0) /\
    (forall i d, log !! i = Some d ->
       d = data (before_step ts (turns i ts s0)) /\
       data (turns (S i) ts s0) = mj_step (model st) d /\
       mujoco_time (turns (S i) ts s0) = mujoco_time (turns i ts s0) + dt) /\
    data st' = match last log with
               | Some d => mj_step (model st) d
               | None => data st
               end /\
    (35 < timeMS - mujoco_time st ->
       mujoco_time st' = timeMS /\ log = [] /\ data st' = data st) /\
    (timeMS - mujoco_time st <= 35 ->
       mujoco_time st' ==
         mujoco_time st + inject_Z (Z.of_nat (length log)) * dt /\
       timeMS <= mujoco_time st' /\
       (log <> [] -> mujoco_time st' - dt < timeMS) /\
       (mujoco_time st < timeMS -> log <> [])).
Proof.
  intros Hp Hts ts dt s0.
  destruct (render_runs timeMS st Hp Hts) as (fuel & n & Hrun & Ht & Hge & Hlast & Hfirst).
  fold ts s0 in Hrun, Ht, Hge, Hlast, Hfirst. fold dt in Ht, Hlast.
  exists fuel, (finish_frame (turns n ts s0)), (step_inputs n ts s0).
  rewrite step_inputs_length.
  assert (Hnil : step_inputs n ts s0 = [] <-> n = 0%nat).
  { rewrite <- (step_inputs_length n ts s0) at 2. by destruct (step_inputs n ts s0). }
  destruct (catch_up_frame timeMS (set_scene st (controls_update (scene st))))
    as (Hm & Hd0 & _). fold s0 in Hm, Hd0. cbn [set_scene model data] in Hm, Hd0.
  split; [exact Hrun|]. split; [reflexivity|]. split; [|split; [|split]].
  - intros i d Hl. apply step_inputs_lookup in Hl as [_ ->].
    split; [reflexivity|]. cbn [turns].
    rewrite loop_body_data, loop_body_time, turns_model, Hm. split; reflexivity.
  - cbn [finish_frame set_scene data]. rewrite last_lookup, step_inputs_length.
    destruct n as [|k]; [exact Hd0|]. cbn [Nat.pred turns].
    unfold step_inputs. rewrite list_lookup_fmap, lookup_seq_lt by lia.
    cbn [fmap option_fmap option_map Nat.add].
    by rewrite loop_body_data, turns_model, Hm.
  - intros Hgap.
    assert (Es0 : s0 = set_mujoco_time (set_scene st (controls_update (scene st))) timeMS).
    { unfold s0, catch_up. change backlog_bound with 35.
      cbn [set_scene mujoco_time]. by rewrite (proj2 (Qltb_lt _ _) Hgap). }
    assert (Hn : n = 0%nat).
    { destruct n as [|k]; [reflexivity|]. exfalso.
      specialize (Hlast ltac:(discriminate)). rewrite Qnat_succ in Ht.
      pose proof (Qnat_nonneg k) as Hk.
      assert (0 <= inject_Z (Z.of_nat k) * dt)
        by (apply Qmult_le_0_compat; [exact Hk | unfold dt, ts; lra]).
      rewrite Es0 in Ht at 2. cbn [set_mujoco_time mujoco_time] in Ht. lra. }
    subst n. cbn [turns]. rewrite Es0. repeat split.
  - intros Hgap.
    assert (Es0 : mujoco_time s0 = mujoco_time st).
    { unfold s0, catch_up. change backlog_bound with 35.
      cbn [set_scene mujoco_time]. by rewrite (proj2 (Qltb_ge _ _) Hgap). }
    rewrite Es0 in Ht, Hfirst. cbn [finish_frame set_scene mujoco_time].
    split; [exact Ht|]. split; [exact Hge|]. split.
    + intros Hne. apply Hlast. intros Hz. by apply Hne, Hnil.
    + intros Hlt Hz. by apply (Hfirst Hlt), Hnil.
Qed.

(** *** Control noise *)

Lemma jitter_lookup rate scale cs :
  forall i0 a g,
    length (jitter rate scale i0 cs a g).1.1 = length cs /\
    forall i c, cs !! i = Some c ->
      (jitter rate scale i0 cs a g).1.1 !! i
      = Some (rate * c + scale * nth_normal i g).
Proof.
  induction cs as [|c0 r IH]; intros i0 a g.
  - split; [reflexivity|]. intros i c Hl. inversion Hl.
  - cbn [jitter]. unfold nth_normal.
    destruct (standardNormal g) as [n g1] eqn:Eg.
    specialize (IH (S i0) (<[i0 := rate * c0 + scale * n]> a) g1).
    destruct (jitter rate scale (S i0) r _ g1) as [[r' a'] g'].
    cbn [fst snd] in *. destruct IH as [Hlen Hlk].
    split; [cbn [length]; by rewrite Hlen|].
    intros [|i] c Hc.
    + injection Hc as ->. cbn [rng_after]. rewrite Eg. reflexivity.
    + cbn [rng_after]. rewrite Eg. cbn [snd]. apply Hlk. exact Hc.
Qed.

(** C8: the data handed to a physics step carries, when the noise deviation
    is positive, every control value [c] replaced by
    [rate * c + scale * n], with [n] the next standard-normal draw,
    [rate = exp(-timestep / max(1e-10, noiseRate))] and
    [scale = noiseStd * sqrt(1 - rate * rate)]; when the deviation is 0 the
    noise step changes nothing, whatever the noise rate. *)
Theorem control_noise st :
  let timestep := opt_timestep (model st) in
  let rate := Math_exp (- timestep / Qmax 1e-10 (ctrlnoiserate (params st))) in
  let scale := ctrlnoisestd (params st) * Math_sqrt (1 - rate * rate) in
  (0 < ctrlnoisestd (params st) ->
   forall i c, ctrl (data st) !! i = Some c ->
     ctrl (data (before_step timestep st)) !! i
     = Some (rate * c + scale * nth_normal i (rng st))) /\
  (ctrlnoisestd (params st) == 0 ->
   noise_step timestep st = st /\
   ctrl (data (before_step timestep st)) = ctrl (data st)).
Proof.
  intros timestep rate scale. unfold before_step.
  destruct (perturb_step_frame (noise_step timestep st)) as (_ & _ & _ & _ & ->).
  split.
  - intros Hpos i c Hc. unfold noise_step.
    rewrite (proj2 (Qltb_lt _ _) Hpos).
    pose proof (jitter_lookup (noise_rate timestep (params st))
                  (noise_scale timestep (params st)) (ctrl (data st)) 0
                  (actuator_entries (params st)) (rng st)) as [_ Hlk].
    destruct (jitter _ _ _ _ _ _) as [[cs a] g]. cbn [data set_ctrl ctrl].
    exact (Hlk i c Hc).
  - intros Hz. unfold noise_step.
    assert (E : Qltb 0 (ctrlnoisestd (params st)) = false)
      by (apply Qltb_ge; lra).
    rewrite E. auto.
Qed.

(** *** Perturbation forces *)

Lemma perturb_step_no_drag st :
  dragged_body (dragStateManager st) = None ->
  qfrc_applied (data (perturb_step st))
    = repeat 0 (length (qfrc_applied (data st))) /\
  dragStateManager (perturb_step st) = dragStateManager st.
Proof. intros Hd. unfold perturb_step. rewrite Hd. auto. Qed.

Lemma before_step_drag ts st b :
  dragged_body (dragStateManager st) = Some b ->
  exists d0 force point,
    qfrc_applied d0 = zeroed_forces st /\
    qfrc_applied (data (before_step ts st))
    = mj_applyFT (model st) d0 force {| x := 0; y := 0; z := 0 |} point b
                 (zeroed_forces st).
Proof.
  intros Hb. unfold before_step, perturb_step, zeroed_forces.
  destruct (noise_step_frame ts st) as (Hm & _ & Hdm & _ & Hq).
  set (s := noise_step ts st) in *. rewrite Hdm, Hb, <- Hq, <- Hm.
  eexists (clear_forces (data s)), _, _. split; reflexivity.
Qed.

Lemma loop_body_no_drag ts st :
  dragged_body (dragStateManager st) = None ->
  dragged_body (dragStateManager (loop_body ts st)) = None.
Proof.
  intros Hd. unfold loop_body, before_step. cbn [dragStateManager].
  destruct (noise_step_frame ts st) as (_ & _ & Hdm & _).
  destruct (perturb_step_no_drag (noise_step ts st)) as [_ ->];
    rewrite Hdm; exact Hd.
Qed.

Lemma before_step_no_drag ts st :
  dragged_body (dragStateManager st) = None ->
  all_zero (data (before_step ts st)).
Proof.
  intros Hd. unfold before_step, all_zero.
  destruct (noise_step_frame ts st) as (_ & _ & Hdm & _).
  destruct (perturb_step_no_drag (noise_step ts st)) as [-> _];
    [rewrite Hdm; exact Hd|].
  apply Forall_forall. intros q Hq. apply list_elem_of_In, repeat_spec in Hq.
  exact Hq.
Qed.

Lemma before_step_zeros ts st :
  dragged_body (dragStateManager st) = None ->
  qfrc_applied (data (before_step ts st)) = zeroed_forces st.
Proof.
  intros Hd. unfold before_step, zeroed_forces.
  destruct (noise_step_frame ts st) as (_ & _ & Hdm & _ & Hq).
  destruct (perturb_step_no_drag (noise_step ts st)) as [-> _];
    [rewrite Hdm; exact Hd|].
  by rewrite Hq.
Qed.

Lemma turns_no_drag n ts st :
  dragged_body (dragStateManager st) = None ->
  dragged_body (dragStateManager (turns n ts st)) = None.
Proof.
  intros Hd. induction n as [|n IH]; [exact Hd|]. cbn [turns].
  by apply loop_body_no_drag.
Qed.

(** C10: on a frame rendered while unpaused the applied-force buffer is
    zeroed, entry by entry, before every physics step of the frame, drag or
    no drag: the buffer a step runs with is the buffer its turn started
    with, every entry set to 0, when no body is dragged in that turn, and
    the result of one force application on the dragged body onto these
    zeros when one is; and when no drag session is active at the frame's
    start every physics step of the frame runs on the all-zero buffer. *)
Theorem forces_cleared_each_step timeMS st :
  paused (params st) = false ->
  0 < opt_timestep (model st) ->
  let ts := opt_timestep (model st) in
  let s0 := catch_up timeMS (set_scene st (controls_update (scene st))) in
  exists fuel st' log,
    (forall fuel', (fuel <= fuel')%nat -> render fuel' timeMS st = Some (st', log)) /\
    st' = finish_frame (turns (length log) ts s0) /\
    (forall i d, log !! i = Some d ->
       let s := turns i ts s0 in
       d = data (before_step ts s) /\
       data (turns (S i) ts s0) = mj_step (model st) d /\
       (dragged_body (dragStateManager s) = None ->
        qfrc_applied d = zeroed_forces s) /\
       (forall b, dragged_body (dragStateManager s) = Some b ->
          exists d0 force point,
            qfrc_applied d0 = zeroed_forces s /\
            qfrc_applied d
            = mj_applyFT (model st) d0 force {| x := 0; y := 0; z := 0 |}
                         point b (zeroed_forces s)) /\
       (dragged_body (dragStateManager st) = None ->
        qfrc_applied d = zeroed_forces s)).
Proof.
  intros Hp Hts ts s0.
  destruct (render_runs timeMS st Hp Hts) as (fuel & n & Hrun & _).
  fold ts s0 in Hrun.
  exists fuel, (finish_frame (turns n ts s0)), (step_inputs n ts s0).
  rewrite step_inputs_length.
  split; [exact Hrun|]. split; [reflexivity|].
  intros i d Hl s. apply step_inputs_lookup in Hl as [_ ->].
  destruct (catch_up_frame timeMS (set_scene st (controls_update (scene st))))
    as (Hm & _ & Hdm). fold s0 in Hm, Hdm. cbn [set_scene model] in Hm.
  assert (Hms : model s = model st) by (unfold s; by rewrite turns_model).
  split; [reflexivity|]. split; [|split; [|split]].
  - cbn [turns]. fold s. by rewrite loop_body_data, Hms.
  - apply before_step_zeros.
  - intros b Hb. rewrite <- Hms. by apply before_step_drag.
  - intros Hd. apply before_step_zeros, turns_no_drag. by rewrite Hdm.
Qed.

(** C2 (amended): while running with an active drag session, before each
    physics step the whole applied-force buffer is zeroed and then the force
    [(currentWorld - worldHit) * bodyMass * 250], with zero torque, is
    applied at the world hit point of the dragged body (force and point being
    handed to the engine through [toMujocoPos]); in particular, for
    bodyMass = 2, hit = (0,0,0) and current = (0.1,0,0) that force is
    (50,0,0). *)
Theorem drag_force_applied ts st b mass :
  dragged_body (dragStateManager st) = Some b ->
  body_mass (model st) !! b = Some mass ->
  let d0 := clear_forces (data (noise_step ts st)) in
  let dm := dragStateManager_update (update_bodies (model st) d0 (scene st))
                                    (dragStateManager st) in
  let v := sub (currentWorld dm) (worldHit dm) in
  let force := multiplyScalar v (mass * 250) in
  qfrc_applied d0 = repeat 0 (length (qfrc_applied (data st))) /\
  qfrc_applied (data (before_step ts st))
    = mj_applyFT (model st) d0 (toMujocoPos force) {| x := 0; y := 0; z := 0 |}
                 (toMujocoPos (worldHit dm)) b (qfrc_applied d0) /\
  veq force {| x := x v * mass * 250; y := y v * mass * 250;
               z := z v * mass * 250 |} /\
  (mass == 2 -> veq v {| x := 0.1; y := 0; z := 0 |} ->
   veq force {| x := 50; y := 0; z := 0 |}).
Proof.
  intros Hd Hm d0 dm v force.
  destruct (noise_step_frame ts st) as (Emodel & _ & Edm & Esc & Eq).
  split; [|split; [|split]].
  - unfold d0, clear_forces. cbn [qfrc_applied set_qfrc_applied]. by rewrite Eq.
  - unfold before_step, perturb_step. rewrite Edm, Hd, Emodel, Esc.
    cbn [data set_qfrc_applied qfrc_applied]. fold d0. fold dm.
    unfold drag_force, f64_get. rewrite Hm. reflexivity.
  - unfold force, veq, multiplyScalar. cbn [x y z]. repeat split; ring.
  - intros Hmass (Hx & Hy & Hz). unfold force, veq, multiplyScalar in *.
    cbn [x y z] in *. rewrite Hx, Hy, Hz, Hmass. repeat split; reflexivity.
Qed.

End RenderFacts.

(** *** The theorems at the example host *)

Lemma render_clock_witness :
  exists fuel st' log,
    render fuel 10 (example_demo no_drag 0 0) = Some (st', log) /\
    10 <= mujoco_time st' /\ log <> [].
Proof.
  destruct (render_clock 10 (example_demo no_drag 0 0))
    as (fuel & st' & log & Hrun & _ & _ & _ & _ & Hstep).
  - reflexivity.
  - reflexivity.
  - exists fuel, st', log. split; [apply Hrun; lia|].
    destruct Hstep as (_ & Hge & _ & Hne); [discriminate|].
    split; [exact Hge | apply Hne; reflexivity].
Defined.

Lemma control_noise_witness :
  ctrl (data (before_step 0.002 (example_demo no_drag 0.1 0))) !! 0%nat
  = Some ((1 # 2) * 1 + 0.1 * (1 - (1 # 2) * (1 # 2)) * 1).
Proof.
  apply (proj1 (control_noise (example_demo no_drag 0.1 0))).
  - reflexivity.
  - reflexivity.
Defined.

Lemma forces_cleared_each_step_witness :
  exists fuel st' log,
    render fuel 10 (example_demo no_drag 0 0) = Some (st', log) /\
    forall i d, log !! i = Some d ->
      qfrc_applied d = zeroed_forces (turns i 0.002 (example_demo no_drag 0 0)).
Proof.
  destruct (forces_cleared_each_step 10 (example_demo no_drag 0 0))
    as (fuel & st' & log & Hrun & _ & Hz).
  - reflexivity.
  - reflexivity.
  - exists fuel, st', log. split; [apply Hrun; lia|].
    intros i d Hl. destruct (Hz i d Hl) as (_ & _ & _ & _ & Hzero).
    apply Hzero. reflexivity.
Defined.

Lemma drag_force_applied_witness :
  Forall2 Qeq
    (take 6 (qfrc_applied
               (data (before_step 0.002 (example_demo example_drag 0 0)))))
    [50; 0; 0; 0; 0; 0].
Proof.
  destruct (drag_force_applied (H := recording_host) 0.002
              (example_demo example_drag 0 0) 1 2) as (_ & E & _ & _).
  - reflexivity.
  - reflexivity.
  - rewrite E. repeat constructor.
Defined.

(** C2, as stated, fails on its own example: for bodyMass = 2,
    hit = (0,0,0) and current = (0.1,0,0) the force is (50,0,0), not
    (5,0,0), both as computed and as handed to the engine. *)
Lemma drag_force_not_5 :
  let st := example_demo example_drag 0 0 in
  let applied := take 3 (qfrc_applied (data (before_step 0.002 st))) in
  dragged_body (dragStateManager st) = Some 1%nat /\
  body_mass (model st) !! 1%nat = Some 2 /\
  veq (drag_force (model st) (dragStateManager st) 1) {| x := 50; y := 0; z := 0 |} /\
  ~ veq (drag_force (model st) (dragStateManager st) 1) {| x := 5; y := 0; z := 0 |} /\
  Forall2 Qeq applied [50; 0; 0] /\
  ~ Forall2 Qeq applied [5; 0; 0].
Proof.
  cbv zeta. split; [reflexivity|]. split; [reflexivity|].
  split; [repeat split|]. split; [|split].
  - intros (Hx & _). vm_compute in Hx. discriminate.
  - repeat constructor.
  - intros Hf. apply Forall2_cons_1 in Hf as [Hx _]. vm_compute in Hx. discriminate.
Qed.


(** *** Further properties of render *)

Section FrameFacts.
Context `{Host}.

Lemma paused_frame_edit st :
  paused_frame st =
  {| model := model st; data := mj_forward (model st) (paused_pose_edit st);
     params := params st; mujoco_time := mujoco_time st;
     dragStateManager := paused_drag st; scene := scene st; rng := rng st |}.
Proof. reflexivity. Qed.

Lemma paused_pose_edit_frame st :
  ctrl (paused_pose_edit st) = ctrl (data st) /\
  qfrc_applied (paused_pose_edit st) = qfrc_applied (data st) /\
  dyn (paused_pose_edit st) = dyn (data st).
Proof.
  unfold paused_pose_edit. destruct (dragged_body (paused_drag st)); [|auto].
  cbv zeta. destruct (0 <=? _)%Z; auto.
Qed.

(** X21: a frame rendered while paused runs no physics step, whatever the
    fuel: simulation time, parameters, random state and model are kept, the
    data is the result of one [mj_forward], and what [mj_forward] receives
    has the controls and the applied forces of the frame's start. *)
Theorem paused_frame_never_steps fuel timeMS st :
  paused (params st) = true ->
  let st0 := set_scene st (controls_update (scene st)) in
  exists st',
    render fuel timeMS st = Some (st', []) /\
    mujoco_time st' = mujoco_time st /\ params st' = params st /\
    rng st' = rng st /\ model st' = model st /\
    data st' = mj_forward (model st) (paused_pose_edit st0) /\
    ctrl (paused_pose_edit st0) = ctrl (data st) /\
    qfrc_applied (paused_pose_edit st0) = qfrc_applied (data st).
Proof.
  intros Hp st0. unfold render. fold st0.
  assert (paused (params st0) = true) as -> by exact Hp. cbn [negb].
  eexists. split; [reflexivity|]. rewrite paused_frame_edit.
  cbn [finish_frame set_scene mujoco_time params rng model data].
  destruct (paused_pose_edit_frame st0) as (Hc & Hq & _).
  repeat split; assumption.
Qed.

Lemma add_at_lookup pos addr k v j :
  (0 <= addr)%Z -> (0 <= k)%Z ->
  add_at pos addr k v !! j =
  (fun p => if decide (j = Z.to_nat (addr + k)) then p + v else p) <$> pos !! j.
Proof.
  intros Ha Hk. unfold add_at.
  assert ((addr + k <? 0)%Z = false) as -> by lia.
  rewrite list_lookup_alter.
  repeat case_decide; try congruence; by destruct (pos !! j).
Qed.

Lemma add_offset_lookup pos addr o j :
  (0 <= addr)%Z ->
  add_offset pos (Some addr) o !! j = bump (Z.to_nat addr) o j <$> pos !! j.
Proof.
  intros Ha. unfold add_offset. rewrite !add_at_lookup by lia.
  destruct (pos !! j) as [p|]; [|reflexivity]. cbn [fmap option_fmap option_map].
  unfold bump. f_equal.
  replace (Z.to_nat (addr + 0)) with (Z.to_nat addr) by lia.
  replace (Z.to_nat (addr + 1)) with (S (Z.to_nat addr)) by lia.
  replace (Z.to_nat (addr + 2)) with (S (S (Z.to_nat addr))) by lia.
  repeat case_decide; try lia; reflexivity.
Qed.

(** X22: while paused, dragging a mocap body adds the offset
    0.3 * (currentWorld - worldHit) to the three coordinates of its mocap
    position, at 3 * mocapid, and to nothing else: the other mocap entries
    and all joint positions are kept. *)
Theorem paused_drag_moves_mocap st b slot :
  dragged_body (paused_drag st) = Some b ->
  body_mocapid (model st) !! b = Some slot ->
  (0 <= slot)%Z ->
  (forall j, mocap_pos (paused_pose_edit st) !! j
             = bump (Z.to_nat (slot * 3)) (paused_offset st) j
               <$> mocap_pos (data st) !! j) /\
  qpos (paused_pose_edit st) = qpos (data st).
Proof.
  intros Hb Hid Hpos. unfold paused_pose_edit. rewrite Hb, Hid.
  cbn [default from_option id]. cbv zeta.
  assert ((0 <=? slot)%Z = true) as -> by lia.
  cbn [set_mocap_pos mocap_pos qpos]. split; [|reflexivity].
  intros j. apply add_offset_lookup. lia.
Qed.

(** X23: while paused, dragging a body that is not a mocap body adds the
    same offset to the three position coordinates of the root joint of its
    root body and to nothing else; when that root has no joint, nothing is
    moved. *)
Theorem paused_drag_moves_root st b :
  dragged_body (paused_drag st) = Some b ->
  (default (-1) (body_mocapid (model st) !! b) < 0)%Z ->
  mocap_pos (paused_pose_edit st) = mocap_pos (data st) /\
  (forall addr, root_qpos_address (model st) b = Some addr -> (0 <= addr)%Z ->
     forall j, qpos (paused_pose_edit st) !! j
               = bump (Z.to_nat addr) (paused_offset st) j <$> qpos (data st) !! j) /\
  (root_qpos_address (model st) b = None ->
     qpos (paused_pose_edit st) = qpos (data st)) /\
  (forall root, body_rootid (model st) !! b = Some root ->
     (0 <= root)%Z -> body_jntadr (model st) !! Z.to_nat root = Some (-1)%Z ->
     root_qpos_address (model st) b = None).
Proof.
  intros Hb Hid. unfold paused_pose_edit, root_qpos_address. rewrite Hb.
  cbv zeta. assert ((0 <=? default (-1) (body_mocapid (model st) !! b))%Z = false)
    as -> by (apply Z.leb_gt; exact Hid).
  cbn [set_qpos mocap_pos qpos]. split; [reflexivity|]. split; [|split].
  - intros addr -> Ha j. by apply add_offset_lookup.
  - intros ->. reflexivity.
  - intros root Hroot Hr Hj. unfold i32_get at 3.
    assert ((Z.of_nat b <? 0)%Z = false) as ->
      by (apply Z.ltb_ge, Nat2Z.is_nonneg).
    rewrite Nat2Z.id, Hroot. unfold i32_get at 2.
    assert ((root <? 0)%Z = false) as -> by (apply Z.ltb_ge; exact Hr).
    rewrite Hj. reflexivity.
Qed.

(** X24: an unpaused frame whose wall time is not ahead of the simulation
    time, or is ahead by more than 35 ms, runs no physics step and leaves
    the data, the drag state, the parameters and the random state alone; in
    the second case the simulation time becomes the wall time. No
    assumption on the timestep is needed. *)
Theorem idle_frame_touches_nothing fuel timeMS st :
  paused (params st) = false ->
  timeMS <= mujoco_time st \/ 35 < timeMS - mujoco_time st ->
  exists st',
    render fuel timeMS st = Some (st', []) /\
    data st' = data st /\ dragStateManager st' = dragStateManager st /\
    params st' = params st /\ rng st' = rng st /\
    mujoco_time st' =
      if Qltb 35 (timeMS - mujoco_time st) then timeMS else mujoco_time st.
Proof.
  intros Hp Hcase. rewrite render_unpaused by exact Hp.
  set (st0 := set_scene st (controls_update (scene st))).
  unfold catch_up. change (mujoco_time st0) with (mujoco_time st).
  change backlog_bound with 35.
  destruct (Qltb 35 (timeMS - mujoco_time st)) eqn:Egap.
  - rewrite while_loop_done by (cbn; lra).
    eexists. split; [reflexivity|]. repeat split.
  - apply Qltb_ge in Egap.
    rewrite while_loop_done by (cbn; destruct Hcase; lra).
    eexists. split; [reflexivity|]. repeat split.
Qed.

(** X25: an unpaused frame (with a positive timestep) completes, and runs
    a bounded burst of physics steps: the time they cover is less than the
    35 ms bound plus one timestep, however long the stall before the frame.
    Whatever fuel completes the frame gives that same result. *)
Theorem burst_is_bounded timeMS st :
  paused (params st) = false ->
  0 < opt_timestep (model st) ->
  exists fuel st' log,
    (forall fuel', (fuel <= fuel')%nat -> render fuel' timeMS st = Some (st', log)) /\
    (forall fuel' r, render fuel' timeMS st = Some r -> r = (st', log)) /\
    inject_Z (Z.of_nat (length log)) * (opt_timestep (model st) * 1000)
    < 35 + opt_timestep (model st) * 1000.
Proof.
  intros Hp Hts.
  destruct (render_runs timeMS st Hp Hts) as (fuel & n & Hrun & Ht & _ & Hlast & _).
  set (ts := opt_timestep (model st)) in *.
  set (s0 := catch_up timeMS (set_scene st (controls_update (scene st)))) in *.
  exists fuel, (finish_frame (turns n ts s0)), (step_inputs n ts s0).
  rewrite step_inputs_length.
  split; [exact Hrun|]. split.
  - intros fuel' r Hr.
    exact (render_deterministic _ _ _ _ _ _ Hr (Hrun fuel (le_n _))).
  - assert (Hs0 : timeMS - mujoco_time s0 <= 35).
    { unfold s0, catch_up. change backlog_bound with 35.
      destruct (Qltb 35 _) eqn:Eg; cbn [set_mujoco_time set_scene mujoco_time].
      - lra.
      - by apply Qltb_ge in Eg. }
    destruct n as [|k].
    + change (inject_Z (Z.of_nat 0)) with 0. lra.
    + specialize (Hlast ltac:(discriminate)). lra.
Qed.

(** X26: an unpaused frame (with a positive timestep) completes, and across
    it the simulation time never decreases and ends at or after the wall
    time; if it was less than one timestep ahead of the wall time before the
    frame, it is so after it. Whatever fuel completes the frame gives that
    same result. *)
Theorem clock_stays_in_step timeMS st :
  paused (params st) = false ->
  0 < opt_timestep (model st) ->
  exists fuel st' log,
    (forall fuel', (fuel <= fuel')%nat -> render fuel' timeMS st = Some (st', log)) /\
    (forall fuel' r, render fuel' timeMS st = Some r -> r = (st', log)) /\
    mujoco_time st <= mujoco_time st' /\
    timeMS <= mujoco_time st' /\
    (mujoco_time st - opt_timestep (model st) * 1000 < timeMS ->
     mujoco_time st' - opt_timestep (model st) * 1000 < timeMS).
Proof.
  intros Hp Hts.
  destruct (render_runs timeMS st Hp Hts) as (fuel & n & Hrun & Ht & Hge & Hlast & _).
  set (ts := opt_timestep (model st)) in *.
  set (s0 := catch_up timeMS (set_scene st (controls_update (scene st)))) in *.
  exists fuel, (finish_frame (turns n ts s0)), (step_inputs n ts s0).
  split; [exact Hrun|]. split.
  { intros fuel' r Hr.
    exact (render_deterministic _ _ _ _ _ _ Hr (Hrun fuel (le_n _))). }
  cbn [finish_frame set_scene mujoco_time].
  assert (Hs0 : mujoco_time st <= mujoco_time s0 /\
                (mujoco_time st - ts * 1000 < timeMS ->
                 mujoco_time s0 - ts * 1000 < timeMS)).
  { unfold s0, catch_up. change backlog_bound with 35.
    destruct (Qltb 35 _) eqn:Eg; cbn [set_mujoco_time set_scene mujoco_time] in *.
    - apply Qltb_lt in Eg. split; [|intros _]; lra.
    - split; [lra | auto]. }
  destruct Hs0 as [Hmono Hahead].
  pose proof (Qnat_nonneg n) as Hnn.
  split; [|split; [exact Hge|]].
  - assert (0 <= inject_Z (Z.of_nat n) * (ts * 1000))
      by (apply Qmult_le_0_compat; lra).
    lra.
  - intros Hbefore. destruct n as [|k].
    + cbn [turns]. by apply Hahead.
    + apply Hlast. discriminate.
Qed.

Lemma jitter_mirror rate scale cs :
  forall i0 a g,
    let r := jitter rate scale i0 cs a g in
    r.2 = rng_after (length cs) g /\
    (forall i, (i < length cs)%nat -> r.1.2 !! (i0 + i)%nat = r.1.1 !! i) /\
    (forall j, (j < i0)%nat \/ (i0 + length cs <= j)%nat -> r.1.2 !! j = a !! j).
Proof.
  induction cs as [|c0 r IH]; intros i0 a g; cbv zeta.
  - cbn. split; [reflexivity|]. split; [intros; lia | reflexivity].
  - cbn [jitter length rng_after].
    destruct (standardNormal g) as [n g1] eqn:Eg.
    specialize (IH (S i0) (<[i0 := rate * c0 + scale * n]> a) g1). cbv zeta in IH.
    destruct (jitter rate scale (S i0) r _ g1) as [[r' a'] g'].
    cbn [fst snd] in *. destruct IH as (Hg & Hin & Hout).
    split; [exact Hg|]. split.
    + intros [|i] Hi.
      * rewrite Nat.add_0_r, Hout by lia. apply lookup_insert_eq.
      * replace (i0 + S i)%nat with (S i0 + i)%nat by lia. apply Hin. lia.
    + intros j Hj. rewrite Hout by lia. apply lookup_insert_ne. lia.
Qed.

(** X27: when the noise deviation is positive, the noise step keeps the
    number of controls, takes exactly one normal draw per control, and
    mirrors every new control value in the parameter entry "Actuator i";
    the other parameters are kept. *)
Theorem noise_step_mirrors ts st :
  0 < ctrlnoisestd (params st) ->
  let s := noise_step ts st in
  length (ctrl (data s)) = length (ctrl (data st)) /\
  rng s = rng_after (length (ctrl (data st))) (rng st) /\
  (forall i, (i < length (ctrl (data st)))%nat ->
     actuator_entries (params s) !! i = ctrl (data s) !! i) /\
  (forall j, (length (ctrl (data st)) <= j)%nat ->
     actuator_entries (params s) !! j = actuator_entries (params st) !! j) /\
  paused (params s) = paused (params st) /\
  ctrlnoisestd (params s) = ctrlnoisestd (params st) /\
  ctrlnoiserate (params s) = ctrlnoiserate (params st).
Proof.
  intros Hpos. cbv zeta. unfold noise_step. rewrite (proj2 (Qltb_lt _ _) Hpos).
  pose proof (jitter_mirror (noise_rate ts (params st)) (noise_scale ts (params st))
                (ctrl (data st)) 0 (actuator_entries (params st)) (rng st)) as Hm.
  pose proof (jitter_lookup (noise_rate ts (params st)) (noise_scale ts (params st))
                (ctrl (data st)) 0 (actuator_entries (params st)) (rng st)) as [Hl _].
  cbv zeta in Hm. destruct (jitter _ _ _ _ _ _) as [[cs a] g].
  cbn [fst snd] in *. destruct Hm as (Hg & Hin & Hout).
  cbn [data set_ctrl ctrl rng params set_actuator_entries actuator_entries
       paused ctrlnoisestd ctrlnoiserate].
  split; [exact Hl|]. split; [exact Hg|]. split; [|split; [|auto]].
  - intros i Hi. exact (Hin i Hi).
  - intros j Hj. apply Hout. right. lia.
Qed.

(** X28: an object without a body id, or with body id 0 (the world body),
    is not dragged while running: every step gets an all-zero force buffer
    and the drag manager is neither updated nor is the scene touched. *)
Theorem world_body_is_not_dragged ts st :
  (forall o, physicsObject (dragStateManager st) = Some o ->
             bodyID o = None \/ bodyID o = Some 0%nat) ->
  all_zero (data (before_step ts st)) /\
  dragStateManager (before_step ts st) = dragStateManager st /\
  scene (before_step ts st) = scene st.
Proof.
  intros Hobj.
  assert (Hd : dragged_body (dragStateManager st) = None).
  { unfold dragged_body. destruct (physicsObject (dragStateManager st)) as [o|];
      [|reflexivity].
    destruct (Hobj o eq_refl) as [-> | ->]; reflexivity. }
  split; [by apply before_step_no_drag|].
  unfold before_step, perturb_step.
  destruct (noise_step_frame ts st) as (_ & _ & Hdm & Hsc & _).
  rewrite Hdm, Hd. cbn [dragStateManager scene]. auto.
Qed.

Lemma noise_step_with_forces ts st q :
  noise_step ts (with_forces st q) = with_forces (noise_step ts st) q.
Proof.
  unfold noise_step, with_forces. cbn [params data set_qfrc_applied ctrl rng].
  destruct (Qltb 0 (ctrlnoisestd (params st))); [|reflexivity].
  destruct (jitter _ _ _ _ _ _) as [[c a] g]. reflexivity.
Qed.

(** X29: perturbation forces do not accumulate: what the applied-force
    buffer held before a step has no influence on the buffer the step
    runs with. *)
Theorem forces_do_not_accumulate ts st q :
  length q = length (qfrc_applied (data st)) ->
  qfrc_applied (data (before_step ts (with_forces st q)))
  = qfrc_applied (data (before_step ts st)).
Proof.
  intros Hlen. unfold before_step. rewrite noise_step_with_forces.
  destruct (noise_step_frame ts st) as (_ & _ & _ & _ & Hq).
  set (s := noise_step ts st) in *.
  assert (Hc : clear_forces (data (with_forces s q)) = clear_forces (data s)).
  { unfold clear_forces, with_forces. cbn [data set_qfrc_applied qfrc_applied
      ctrl mocap_pos qpos dyn]. by rewrite Hlen, Hq. }
  unfold perturb_step. rewrite Hc.
  cbn [with_forces dragStateManager model scene].
  destruct (dragged_body (dragStateManager s)); reflexivity.
Qed.

End FrameFacts.

(** *** The further properties at the example host *)

Lemma paused_frame_never_steps_witness :
  exists st', render 0 10 (paused_demo mocap_model) = Some (st', []) /\
              mujoco_time st' = 0.
Proof.
  destruct (paused_frame_never_steps (H := recording_host) 0 10
              (paused_demo mocap_model) eq_refl) as (st' & E & Ht & _).
  exists st'. split; [exact E | exact Ht].
Defined.

Lemma paused_drag_moves_mocap_witness :
  Forall2 Qeq (mocap_pos (paused_pose_edit (paused_demo mocap_model)))
              [1.03; 1; 1].
Proof.
  destruct (paused_drag_moves_mocap (H := recording_host)
              (paused_demo mocap_model) 1 0) as [Hm _].
  - reflexivity.
  - reflexivity.
  - lia.
  - pose proof (Hm 0%nat) as H0. pose proof (Hm 1%nat) as H1.
    pose proof (Hm 2%nat) as H2. pose proof (Hm 3%nat) as H3.
    destruct (mocap_pos (paused_pose_edit (paused_demo mocap_model)))
      as [|a [|b [|c [|e l]]]]; try discriminate.
    injection H0 as ->. injection H1 as ->. injection H2 as ->.
    repeat constructor.
Defined.

Lemma paused_drag_moves_root_witness :
  root_qpos_address KeyboardControl.example_model 1 = Some 0%Z /\
  mocap_pos (paused_pose_edit (paused_demo KeyboardControl.example_model))
  = [1; 1; 1].
Proof.
  destruct (paused_drag_moves_root (H := recording_host)
              (paused_demo KeyboardControl.example_model) 1) as [Hm _].
  - reflexivity.
  - reflexivity.
  - split; [reflexivity | exact Hm].
Defined.

Lemma idle_frame_touches_nothing_witness :
  exists st', render 0 100 (example_demo example_drag 0.1 0) = Some (st', []) /\
              mujoco_time st' = 100.
Proof.
  destruct (idle_frame_touches_nothing (H := recording_host) 0 100
              (example_demo example_drag 0.1 0) eq_refl) as (st' & E & _ & _ & _ & _ & Ht).
  - right. reflexivity.
  - exists st'. split; [exact E | exact Ht].
Defined.

Lemma burst_is_bounded_witness :
  exists fuel st' log,
    render fuel 10 (example_demo no_drag 0 0) = Some (st', log) /\
    inject_Z (Z.of_nat (length log)) * (0.002 * 1000) < 35 + 0.002 * 1000.
Proof.
  destruct (burst_is_bounded (H := recording_host) 10
              (example_demo no_drag 0 0) eq_refl eq_refl)
    as (fuel & st' & log & Hrun & _ & Hb).
  exists fuel, st', log. split; [apply Hrun; lia | exact Hb].
Defined.

Lemma clock_stays_in_step_witness :
  exists fuel st' log,
    render fuel 10 (example_demo no_drag 0 0) = Some (st', log) /\
    10 <= mujoco_time st' /\ mujoco_time st' - 0.002 * 1000 < 10.
Proof.
  destruct (clock_stays_in_step (H := recording_host) 10
              (example_demo no_drag 0 0) eq_refl eq_refl)
    as (fuel & st' & log & Hrun & _ & _ & Hge & Hin).
  exists fuel, st', log. split; [apply Hrun; lia|].
  split; [exact Hge | apply Hin; reflexivity].
Defined.

Lemma noise_step_mirrors_witness :
  rng (noise_step 0.002 (example_demo no_drag 0.1 0)) = 2%nat.
Proof.
  destruct (noise_step_mirrors (H := recording_host) 0.002
              (example_demo no_drag 0.1 0)) as (_ & Hg & _).
  - reflexivity.
  - rewrite Hg. reflexivity.
Defined.

Lemma world_body_is_not_dragged_witness :
  all_zero (data (before_step 0.002
    (example_demo {| physicsObject := Some {| bodyID := Some 0%nat |};
                     currentWorld := {| x := 1; y := 0; z := 0 |};
                     worldHit := {| x := 0; y := 0; z := 0 |} |} 0 0))).
Proof.
  apply (world_body_is_not_dragged (H := recording_host)).
  intros o [= <-]. right. reflexivity.
Defined.

Lemma forces_do_not_accumulate_witness :
  qfrc_applied (data (before_step 0.002
    (with_forces (example_demo example_drag 0 0) [9; 9; 9; 9; 9; 9])))
  = qfrc_applied (data (before_step 0.002 (example_demo example_drag 0 0))).
Proof.
  apply (forces_do_not_accumulate (H := recording_host)). reflexivity.
Defined.

End MuJoCoDemoFacts.

(** ** SceneConfigManager *)

Module SceneConfigManagerFacts.
Import SceneConfigManager.

Section PlainObjectFacts.
Context {A : Type}.
Implicit Types o : list (string * A).


Lemma own_set_keys o n v :
  (own_set o n v).*1 =
  match own_get o n with
  | Some _ => o.*1
  | None => o.*1 ++ [n]
  end.
Proof.
  induction o as [|[m x] r IH]; cbn [own_set own_get]; [reflexivity|].
  destruct (String.eqb m n); [reflexivity|].
  rewrite !fmap_cons, IH. destruct (own_get r n); reflexivity.
Qed.

Lemma own_get_keys o n : n ∈ o.*1 <-> is_Some (own_get o n).
Proof.
  induction o as [|[m x] r IH]; cbn [own_get].
  - split; [intros Hin; inversion Hin | intros [? ?]; discriminate].
  - rewrite fmap_cons, elem_of_cons. cbn [fst].
    destruct (String.eqb_spec m n) as [->|Hm].
    + split; [eauto | by left].
    + rewrite <- IH. split; [intros [?|?]; [congruence | assumption] | by right].
Qed.

(** A read finds an own property exactly when there is one. *)
Lemma obj_get_Own o n a : obj_get o n = Own a <-> own_get o n = Some a.
Proof.
  unfold obj_get. destruct (own_get o n).
  - split; intros [= ->]; reflexivity.
  - destruct (inherited n); split; discriminate.
Qed.

(** Under a name other than ["__proto__"] an assignment stores an own
    property. *)
Lemma obj_set_Stored o n v :
  n <> "__proto__"%string -> obj_set o n v = Stored (own_set o n v).
Proof.
  intros Hn. unfold obj_set. destruct (own_get o n); [reflexivity|].
  destruct (String.eqb_spec n "__proto__"); [contradiction | reflexivity].
Qed.


Lemma Object_keys_Permutation o : Object_keys o ≡ₚ o.*1.
Proof.
  unfold Object_keys. rewrite merge_sort_Permutation.
  apply filter_app_complement.
Qed.

Lemma Object_keys_plain o :
  (forall k, k ∈ o.*1 -> array_index k = None) -> Object_keys o = o.*1.
Proof.
  intros Hplain. unfold Object_keys.
  assert (E : filter (fun k => is_Some (array_index k)) o.*1 = []
              /\ filter (fun k => ~ is_Some (array_index k)) o.*1 = o.*1).
  { induction (o.*1) as [|k ks IH]; [auto|].
    assert (Hk : array_index k = None) by (apply Hplain; left).
    destruct IH as [E1 E2]; [intros k' Hk'; apply Hplain; by right|].
    rewrite filter_cons_False by (rewrite Hk; intros [? ?]; discriminate).
    rewrite filter_cons_True by (rewrite Hk; intros [? ?]; discriminate).
    by rewrite E1, E2. }
  destruct E as [-> ->]. reflexivity.
Qed.

End PlainObjectFacts.

(** Registering under ["__proto__"] stores no robot: it replaces the
    prototype of the table. *)
Lemma register_proto config M :
  own_get (robots M) "__proto__" = None ->
  registerUploadedRobot "__proto__" config M = None.
Proof. intros E. unfold registerUploadedRobot, obj_set. by rewrite E. Qed.

Lemma register_plain robotName config M :
  robotName <> "__proto__"%string ->
  registerUploadedRobot robotName config M
  = Some {| environments := environments M;
            robots := own_set (robots M) robotName (uploaded config) |}.
Proof.
  intros Hn. unfold registerUploadedRobot. by rewrite obj_set_Stored.
Qed.



(** X19: [listRobots] lists exactly the names under which [getRobot] finds
    an entry of the table (a member inherited from [Object.prototype] is not
    one), each once when the entries have distinct names; registering under
    a name other than ["__proto__"] keeps the names distinct. *)
Theorem listRobots_lists_known M n config :
  (forall k, k ∈ listRobots M <-> exists r, getRobot k M = Own r) /\
  (NoDup (robots M).*1 ->
   NoDup (listRobots M) /\
   (n <> "__proto__"%string ->
    exists M', registerUploadedRobot n config M = Some M' /\
               NoDup (robots M').*1)).
Proof.
  unfold listRobots, getRobot. split.
  - intros k. rewrite Object_keys_Permutation, own_get_keys.
    split; [intros [r Hr] | intros [r Hr]]; exists r; by apply obj_get_Own.
  - intros Hnd. split; [by rewrite Object_keys_Permutation|]. intros Hn.
    eexists. split; [by apply register_plain|].
    cbn [robots]. rewrite own_set_keys.
    destruct (own_get (robots M) n) eqn:Eg; [exact Hnd|].
    apply NoDup_app. split; [exact Hnd|]. split; [|apply NoDup_singleton].
    intros k Hk Hk'. apply list_elem_of_singleton in Hk'. subst k.
    apply own_get_keys in Hk as [? ?]. congruence.
Qed.

Lemma listRobots_lists_known_witness :
  ("panda"%string ∈ listRobots constructor) /\
  ("constructor"%string ∉ listRobots constructor) /\
  NoDup (listRobots constructor).
Proof.
  destruct (listRobots_lists_known constructor "panda" my_robot) as [Hin Hnd].
  split; [|split].
  - apply Hin. eexists. reflexivity.
  - intros Hc. apply Hin in Hc as [r Hr]. discriminate.
  - apply Hnd. apply (bool_decide_unpack _). vm_compute. reflexivity.
Defined.

(** X20: when no robot name is an array index, [listRobots] gives the names
    in registration order: registering a new name (other than
    ["__proto__"]) appends it, registering a known name leaves the list as
    it is. *)
Theorem listRobots_after_register robotName config M :
  array_index robotName = None ->
  robotName <> "__proto__"%string ->
  (forall k, k ∈ (robots M).*1 -> array_index k = None) ->
  exists M',
    registerUploadedRobot robotName config M = Some M' /\
    listRobots M = (robots M).*1 /\
    listRobots M' =
    match getRobot robotName M with
    | Own _ => listRobots M
    | _ => listRobots M ++ [robotName]
    end.
Proof.
  intros Hn Hp Hplain. eexists. split; [by apply register_plain|].
  unfold listRobots, getRobot, obj_get.
  cbn [robots]. rewrite (Object_keys_plain (robots M)) by exact Hplain.
  split; [reflexivity|].
  rewrite Object_keys_plain.
  - rewrite own_set_keys. destruct (own_get (robots M) robotName); [reflexivity|].
    by destruct (inherited robotName).
  - intros k. rewrite own_set_keys.
    destruct (own_get (robots M) robotName); [apply Hplain|].
    intros Hk. apply elem_of_app in Hk as [Hk|Hk]; [by apply Hplain|].
    apply list_elem_of_singleton in Hk. by subst k.
Qed.

Lemma listRobots_after_register_witness :
  exists M',
    registerUploadedRobot "my_robot" my_robot constructor = Some M' /\
    listRobots M'
    = ["xlerobot"; "SO101"; "panda"; "humanoid"; "my_robot"]%string.
Proof.
  destruct (listRobots_after_register "my_robot" my_robot constructor)
    as (M' & E & _ & EL).
  - reflexivity.
  - discriminate.
  - intros k Hk. cbn in Hk.
    repeat (apply elem_of_cons in Hk as [->|Hk]; [reflexivity|]).
    inversion Hk.
  - exists M'. split; [exact E|]. rewrite EL. reflexivity.
Defined.

End SceneConfigManagerFacts.
